(** * RoadTemp: temporary files and directories (src/roadtemp/temp.py)

    A shallow embedding of [TempFile], [TempDir] and [TempManager] and the
    properties of their operations.  Python objects become records, the
    mutable world (registry, filesystem, log) is threaded explicitly through
    a small state-and-exception monad, and the operating-system calls the
    module relies on are an interface with one concrete, executable model. *)

From Stdlib Require Import ZArith NArith Ascii String List Bool Lia.
From stdpp Require Import base option list strings gmap.

Local Open Scope string_scope.
Local Open Scope Z_scope.

(** ** Exceptions

    The exception classes that can reach the module.  All of them derive from
    Python's [Exception], so an [except Exception] clause catches every one. *)

Inductive exn : Type :=
  | FileNotFoundError
  | FileExistsError
  | NotADirectoryError
  | IsADirectoryError
  | PermissionError
  | OSError
  | TypeError
  | KeyError
  | OverflowError.

#[global] Instance exn_eq_dec : EqDecision exn.
Proof. solve_decision. Defined.

Inductive outcome (A : Type) : Type :=
  | Ok (a : A)
  | Raise (e : exn).
Arguments Ok {A} a.
Arguments Raise {A} e.

(** ** Paths: pathlib's pure POSIX paths

    A [Path] is the tuple pathlib calls [parts]: the components of the path,
    an absolute path starting with its root ["/"] (or ["//"], which POSIX
    keeps apart).  Empty components and ["."] are dropped when a string is
    parsed, [".."] is kept: pathlib never resolves it. *)

Definition Path : Type := list string.

Definition slash : ascii := "/"%char.

(** [s.split("/")] *)
Fixpoint split_slash (s : string) : list string :=
  match s with
  | EmptyString => [EmptyString]
  | String c rest =>
      if Ascii.eqb c slash then EmptyString :: split_slash rest
      else match split_slash rest with
           | hd :: tl => String c hd :: tl
           | [] => [String c EmptyString]
           end
  end.

Definition keep_component (c : string) : bool :=
  negb (String.eqb c "") && negb (String.eqb c ".").

(** The root of a path string: none, ["/"], or ["//"] for exactly two
    leading slashes. *)
Definition root_of (s : string) : option string :=
  match s with
  | String c1 (String c2 (String c3 _)) =>
      if Ascii.eqb c1 slash then
        if Ascii.eqb c2 slash then
          if Ascii.eqb c3 slash then Some "/" else Some "//"
        else Some "/"
      else None
  | String c1 (String c2 EmptyString) =>
      if Ascii.eqb c1 slash then
        if Ascii.eqb c2 slash then Some "//" else Some "/"
      else None
  | String c1 EmptyString => if Ascii.eqb c1 slash then Some "/" else None
  | EmptyString => None
  end.

(** [Path(s)] *)
Definition parse_path (s : string) : Path :=
  let comps := List.filter keep_component (split_slash s) in
  match root_of s with
  | Some r => r :: comps
  | None => comps
  end.

Definition is_root (c : string) : bool :=
  String.eqb c "/" || String.eqb c "//".

Definition is_absolute (p : Path) : bool :=
  match p with
  | c :: _ => is_root c
  | [] => false
  end.

(** [p / name]: an absolute right operand replaces the left one. *)
Definition joinpath (p : Path) (name : string) : Path :=
  let q := parse_path name in
  if is_absolute q then q else (p ++ q)%list.

Fixpoint join_slash (l : list string) : string :=
  match l with
  | [] => ""
  | [c] => c
  | c :: tl => c +:+ "/" +:+ join_slash tl
  end.

(** [str(p)] *)
Definition path_str (p : Path) : string :=
  match p with
  | [] => "."
  | c :: tl => if is_root c then c +:+ join_slash tl else join_slash p
  end.

(** The paths whose parent is themselves: a bare root and the empty path
    (the current directory). *)
Definition is_anchor (p : Path) : bool :=
  match p with
  | [] => true
  | [c] => is_root c
  | _ => false
  end.

(** [p.parent] *)
Definition parent (p : Path) : Path :=
  if is_anchor p then p else removelast p.

(** Lexical containment, pathlib's [is_relative_to]. *)
Definition is_under (base p : Path) : Prop := base `prefix_of` p.

(** ** The world: state threaded through code that may raise *)

Definition io (W A : Type) : Type := W -> outcome A * W.

Definition ret {W A} (a : A) : io W A := fun w => (Ok a, w).

Definition raise {W A} (e : exn) : io W A := fun w => (Raise e, w).

Definition bind {W A B} (m : io W A) (k : A -> io W B) : io W B :=
  fun w =>
    match m w with
    | (Ok a, w') => k a w'
    | (Raise e, w') => (Raise e, w')
    end.

(** [try: body  except Exception as e: handler(e)] *)
Definition try_except {W A} (body : io W A) (handler : exn -> io W A) : io W A :=
  fun w =>
    match body w with
    | (Ok a, w') => (Ok a, w')
    | (Raise e, w') => handler e w'
    end.

Declare Scope io_scope.
Delimit Scope io_scope with io.
Notation "'let*' x ':=' c 'in' k" := (bind c (fun x => k))
  (at level 10, x pattern, c at level 100, k at level 200) : io_scope.
Notation "c1 ';;' c2" := (bind c1 (fun _ => c2))
  (at level 100, c2 at level 200, right associativity) : io_scope.

(** ** The operating system's file interface

    What the module asks of the operating system, through [pathlib],
    [shutil] and [os].  Every call may raise, and may have changed the
    filesystem before it does. *)

Class FileSystem (FS : Type) : Type := {
  is_file : Path -> io FS bool;
  is_dir : Path -> io FS bool;
  unlink : Path -> io FS unit;
  rmtree : Path -> io FS unit;
  touch : Path -> io FS unit;
  (** [p.mkdir(parents=..., exist_ok=...)] *)
  mkdir : bool -> bool -> Path -> io FS unit;
  write_text : Path -> string -> io FS unit
}.

(** [p.exists()], which the handles ask before they remove their path. *)
Class PathProbe (FS : Type) : Type := {
  path_exists : Path -> io FS bool
}.

(** ** Python's dict: keys in insertion order, each at most once *)

Section Dict.
Context {V : Type}.

Definition dict : Type := list (string * V).

Definition keys (d : dict) : list string := map fst d.
Definition values (d : dict) : list V := map snd d.

Fixpoint dict_get (k : string) (d : dict) : option V :=
  match d with
  | [] => None
  | (k', v) :: tl => if String.eqb k k' then Some v else dict_get k tl
  end.

(** [d[k] = v]: an existing key keeps its place. *)
Fixpoint dict_set (k : string) (v : V) (d : dict) : dict :=
  match d with
  | [] => [(k, v)]
  | (k', v') :: tl =>
      if String.eqb k k' then (k, v) :: tl else (k', v') :: dict_set k v tl
  end.

(** [d.pop(k)]: [None] stands for the [KeyError] of a missing key. *)
Fixpoint dict_pop (k : string) (d : dict) : option (V * dict) :=
  match d with
  | [] => None
  | (k', v) :: tl =>
      if String.eqb k k' then Some (v, tl)
      else match dict_pop k tl with
           | Some (x, tl') => Some (x, (k', v) :: tl')
           | None => None
           end
  end.
End Dict.
Arguments dict V : clear implicits.

(** ** Time

    A [datetime] is a number of microseconds, the resolution of Python's
    [datetime], counted from [datetime.min], the first instant of the year
    1; [timedelta(seconds=n)] is [n] million of them.  An age in
    seconds, [(now - created).total_seconds()], is compared with [max_age]
    by comparing the microseconds (the float the code computes carries
    them exactly for any age a clock can show within a few centuries). *)

Definition datetime : Type := Z.

Definition timedelta_seconds (n : Z) : Z := n * 1000000.

(** [datetime.max], the last microsecond of the year 9999: 3652059 days
    after [datetime.min], less one microsecond. *)
Definition datetime_max : datetime := 3652059 * 86400 * 1000000 - 1.

(** A [timedelta] holds at most this many days, either way. *)
Definition timedelta_max_days : Z := 999999999.

(** Whether [now + timedelta(seconds=t)] raises [OverflowError]: building
    the [timedelta] does when [t] seconds are too many days, the addition
    does when the sum is no [datetime]. *)
Definition overflows (now : datetime) (t : Z) : bool :=
  (Z.abs (t / 86400) >? timedelta_max_days)
  || (now + timedelta_seconds t <? 0)
  || (now + timedelta_seconds t >? datetime_max).

(** ** TempFileInfo and TempManager *)

Record TempFileInfo : Type := {
  path : Path;
  created : datetime;
  expires : option datetime;
  auto_delete : bool
}.

Record TempManager : Type := {
  base_dir : Path;
  auto_cleanup : bool;
  max_age : Z;
  _files : dict TempFileInfo
}.

Definition set_files (self : TempManager) (d : dict TempFileInfo) : TempManager :=
  {| base_dir := base_dir self; auto_cleanup := auto_cleanup self;
     max_age := max_age self; _files := d |}.

(** [uuid.uuid4().hex]: the 128-bit draw written as 32 lower-case
    hexadecimal digits. *)
Definition hex_digit (d : N) : ascii :=
  match d with
  | 0%N => "0" | 1%N => "1" | 2%N => "2" | 3%N => "3"
  | 4%N => "4" | 5%N => "5" | 6%N => "6" | 7%N => "7"
  | 8%N => "8" | 9%N => "9" | 10%N => "a" | 11%N => "b"
  | 12%N => "c" | 13%N => "d" | 14%N => "e" | _ => "f"
  end%char.

Fixpoint hex_digits (n : nat) (u : N) : string :=
  match n with
  | O => ""
  | S n' => String (hex_digit ((u / 16 ^ N.of_nat n') mod 16)%N) (hex_digits n' u)
  end.

Definition uuid_hex (u : N) : string := hex_digits 32 u.

Section Manager.
Context {FS : Type} `{FileSystem FS}.

(** What a manager's methods can see and change: the manager object, the
    filesystem, and the records [logger.error] has emitted. *)
Record World : Type := {
  w_self : TempManager;
  w_fs : FS;
  w_log : list (Path * exn)
}.

Definition get_self : io World TempManager := fun w => (Ok (w_self w), w).

Definition put_files (d : dict TempFileInfo) : io World unit :=
  fun w => (Ok tt, {| w_self := set_files (w_self w) d; w_fs := w_fs w; w_log := w_log w |}).

Definition on_fs {A} (m : io FS A) : io World A :=
  fun w =>
    let '(r, fs') := m (w_fs w) in
    (r, {| w_self := w_self w; w_fs := fs'; w_log := w_log w |}).

Definition logger_error (p : Path) (e : exn) : io World unit :=
  fun w => (Ok tt, {| w_self := w_self w; w_fs := w_fs w; w_log := (w_log w ++ [(p, e)])%list |}).

Local Open Scope io_scope.

(** The methods take the manager's lock around what they do to the
    registry.  The embedding follows one thread, so the lock does not
    appear. *)


(** [expires = datetime.now() + timedelta(seconds=ttl) if ttl else None]:
    the conditional tests the truth value of [ttl], and [None] and [0]
    are both false.  [expires_of] is the value of the expression where
    it has one. *)
Definition expires_of (now : datetime) (ttl : option Z) : option datetime :=
  match ttl with
  | Some t => if Z.eqb t 0 then None else Some (now + timedelta_seconds t)
  | None => None
  end.

(** Whether evaluating the expression raises: only a [ttl] that counts as
    true reaches the arithmetic. *)
Definition expires_raises (now : datetime) (ttl : option Z) : bool :=
  match ttl with
  | Some t => negb (Z.eqb t 0) && overflows now t
  | None => false
  end.

(** The expression, evaluated. *)
Definition eval_expires (now : datetime) (ttl : option Z) : io World (option datetime) :=
  if expires_raises now ttl then raise OverflowError else ret (expires_of now ttl).

(** [self._files[str(path)] = TempFileInfo(path=path, created=..., expires=expires)] *)
Definition register (p : Path) (now : datetime) (exp : option datetime) : io World unit :=
  let* self := get_self in
  put_files (dict_set (path_str p)
               {| path := p; created := now; expires := exp; auto_delete := true |}
               (_files self)).

(** [create_file]: [u] is the uuid drawn, [now1] and [now2] the two
    readings of the clock. *)
Definition create_file (suffix prefix : string) (ttl : option Z)
    (u : N) (now1 now2 : datetime) : io World Path :=
  let* self := get_self in
  let name := prefix +:+ uuid_hex u +:+ suffix in
  let p := joinpath (base_dir self) name in
  on_fs (touch p) ;;
  let* exp := eval_expires now1 ttl in
  register p now2 exp ;;
  ret p.

Definition create_dir (prefix : string) (ttl : option Z)
    (u : N) (now1 now2 : datetime) : io World Path :=
  let* self := get_self in
  let name := prefix +:+ uuid_hex u in
  let p := joinpath (base_dir self) name in
  on_fs (mkdir true false p) ;;
  let* exp := eval_expires now1 ttl in
  register p now2 exp ;;
  ret p.

(** The body of the first loop of [cleanup], for one entry. *)
Definition should_remove (self : TempManager) (force : bool) (now : datetime)
    (info : TempFileInfo) : bool :=
  let should_remove := force in
  let should_remove :=
    if negb should_remove
       && match expires info with Some e => now >? e | None => false end
    then true else should_remove in
  let should_remove :=
    if negb should_remove && auto_cleanup self then
      let age := now - created info in
      if age >? timedelta_seconds (max_age self) then true else should_remove
    else should_remove in
  should_remove.

Definition to_remove (self : TempManager) (force : bool) (now : datetime) : list string :=
  map fst (List.filter (fun kv => should_remove self force now (snd kv)) (_files self)).

(** The removal inside the [try] block. *)
Definition remove_path (info : TempFileInfo) : io FS unit :=
  let* f := is_file (path info) in
  if f then unlink (path info)
  else
    let* d := is_dir (path info) in
    if d then rmtree (path info) else ret tt.

(** The body of the second loop of [cleanup], for one key. *)
Definition remove_one (key : string) (count : nat) : io World nat :=
  let* self := get_self in
  match dict_pop key (_files self) with
  | None => raise KeyError
  | Some (info, files') =>
      put_files files' ;;
      try_except
        (on_fs (remove_path info) ;; ret (S count))
        (fun e => logger_error (path info) e ;; ret count)
  end.

Fixpoint remove_all (ks : list string) (count : nat) : io World nat :=
  match ks with
  | [] => ret count
  | key :: rest =>
      let* count' := remove_one key count in
      remove_all rest count'
  end.

Definition cleanup (force : bool) (now : datetime) : io World nat :=
  let* self := get_self in
  remove_all (to_remove self force now) 0%nat.

(** [list] *)
Definition list_entries : io World (list TempFileInfo) :=
  let* self := get_self in
  ret (values (_files self)).

(** [__exit__] *)
Definition manager_exit (now : datetime) : io World unit :=
  cleanup true now ;; ret tt.
End Manager.

(** ** A model of the filesystem

    The objects are held by path.  The two anchors (a bare root and the
    current directory) are always directories.  [faults] lists the objects
    whose removal the system refuses, with the error it raises.  Paths are
    taken as pathlib writes them: [".."] is a name like any other and there
    are no links, so what is said of the object at a path, or of the paths
    above and below it, is said of paths that are absolute and free of
    [".."].  A creation is refused only under a missing parent, under a
    parent that is no directory, or over an existing object: a name the
    system does not accept, a permission or a full disk are not
    modelled, and where a result says that a creation succeeds it says so
    for a system without them. *)

Inductive node : Type :=
  | File (content : string)
  | Dir.

Record posix : Type := {
  nodes : gmap (list string) node;
  faults : gmap (list string) exn
}.

Definition node_at (fs : posix) (p : Path) : option node :=
  if is_anchor p then Some Dir else nodes fs !! p.

Definition set_node (fs : posix) (p : Path) (n : node) : posix :=
  {| nodes := <[p := n]> (nodes fs); faults := faults fs |}.

Definition posix_is_file (p : Path) : io posix bool :=
  fun fs => (Ok (match node_at fs p with Some (File _) => true | _ => false end), fs).

Definition posix_is_dir (p : Path) : io posix bool :=
  fun fs => (Ok (match node_at fs p with Some Dir => true | _ => false end), fs).

Definition posix_unlink (p : Path) : io posix unit :=
  fun fs =>
    match node_at fs p with
    | None => (Raise FileNotFoundError, fs)
    | Some Dir => (Raise IsADirectoryError, fs)
    | Some (File _) =>
        match faults fs !! p with
        | Some e => (Raise e, fs)
        | None => (Ok tt, {| nodes := delete p (nodes fs); faults := faults fs |})
        end
    end.

(** The first refusal met in the tree under [p], if any. *)
Definition tree_fault (fs : posix) (p : Path) : option exn :=
  snd <$> head (map_to_list
    (filter (fun kv => p `prefix_of` fst kv /\ is_Some (node_at fs (fst kv))) (faults fs))).

(** [shutil.rmtree(p)].  A refusal leaves the tree as it was (the real call
    may by then have removed part of what the directory held). *)
Definition posix_rmtree (p : Path) : io posix unit :=
  fun fs =>
    match node_at fs p with
    | None => (Raise FileNotFoundError, fs)
    | Some (File _) => (Raise NotADirectoryError, fs)
    | Some Dir =>
        match tree_fault fs p with
        | Some e => (Raise e, fs)
        | None =>
            (Ok tt, {| nodes := filter (fun kv => ~ p `prefix_of` fst kv) (nodes fs);
                       faults := faults fs |})
        end
    end.

(** Creating an entry needs its parent to be a directory. *)
Definition parent_check (p : Path) (fs : posix) : option exn :=
  match node_at fs (parent p) with
  | None => Some FileNotFoundError
  | Some (File _) => Some NotADirectoryError
  | Some Dir => None
  end.

(** [p.touch()]: an existing object only has its times updated. *)
Definition posix_touch (p : Path) : io posix unit :=
  fun fs =>
    match node_at fs p with
    | Some _ => (Ok tt, fs)
    | None =>
        match parent_check p fs with
        | Some e => (Raise e, fs)
        | None => (Ok tt, set_node fs p (File ""))
        end
    end.

(** [os.mkdir(p)] *)
Definition os_mkdir (p : Path) : io posix unit :=
  fun fs =>
    match parent_check p fs with
    | Some e => (Raise e, fs)
    | None =>
        match node_at fs p with
        | Some _ => (Raise FileExistsError, fs)
        | None => (Ok tt, set_node fs p Dir)
        end
    end.

(** [Path.mkdir]: on [FileNotFoundError] and [parents], make the parent
    (with [parents=True, exist_ok=True]) and retry without [parents]; on
    another error, accept an existing directory when [exist_ok].  The
    recursion climbs one component at a time, so a path's length bounds
    it. *)
Fixpoint mkdir_fuel (n : nat) (parents exist_ok : bool) (p : Path) : io posix unit :=
  fun fs =>
    match os_mkdir p fs with
    | (Ok _, fs') => (Ok tt, fs')
    | (Raise FileNotFoundError, fs') =>
        if negb parents || bool_decide (parent p = p) then (Raise FileNotFoundError, fs')
        else
          match n with
          | O => (Raise FileNotFoundError, fs')
          | S n' =>
              match mkdir_fuel n' true true (parent p) fs' with
              | (Ok _, fs'') => mkdir_fuel n' false exist_ok p fs''
              | (Raise e, fs'') => (Raise e, fs'')
              end
          end
    | (Raise e, fs') =>
        if negb exist_ok || negb (match node_at fs' p with Some Dir => true | _ => false end)
        then (Raise e, fs')
        else (Ok tt, fs')
    end.

Definition posix_mkdir (parents exist_ok : bool) (p : Path) : io posix unit :=
  mkdir_fuel (length p) parents exist_ok p.

(** [p.write_text(content)]: create or truncate, then write. *)
Definition posix_write_text (p : Path) (content : string) : io posix unit :=
  fun fs =>
    match node_at fs p with
    | Some Dir => (Raise IsADirectoryError, fs)
    | Some (File _) => (Ok tt, set_node fs p (File content))
    | None =>
        match parent_check p fs with
        | Some e => (Raise e, fs)
        | None => (Ok tt, set_node fs p (File content))
        end
    end.

#[global] Instance posix_fs : FileSystem posix := {
  is_file := posix_is_file;
  is_dir := posix_is_dir;
  unlink := posix_unlink;
  rmtree := posix_rmtree;
  touch := posix_touch;
  mkdir := posix_mkdir;
  write_text := posix_write_text
}.

Definition posix_exists (p : Path) : io posix bool :=
  fun fs => (Ok (match node_at fs p with Some _ => true | None => false end), fs).

#[global] Instance posix_probe : PathProbe posix := {
  path_exists := posix_exists
}.

(** ** TempDir *)

Module TempDir.
Record t : Type := {
  suffix : string;
  prefix : string;
  dir : option string;
  delete : bool;
  _path : option Path
}.

(** [__init__] *)
Definition init (suffix prefix : string) (dir : option string) (delete : bool) : t :=
  {| suffix := suffix; prefix := prefix; dir := dir; delete := delete; _path := None |}.

(** The handle once [create] has stored the directory [tempfile.mkdtemp]
    made. *)
Definition created (self : t) (made : Path) : t :=
  {| suffix := suffix self; prefix := prefix self; dir := dir self;
     delete := delete self; _path := Some made |}.

Section Methods.
Context {FS : Type} `{FileSystem FS}.
Local Open Scope io_scope.

(** [self._path / name]; dividing [None] is a [TypeError]. *)
Definition child (self : t) (name : string) : io FS Path :=
  match _path self with
  | Some d => ret (joinpath d name)
  | None => raise TypeError
  end.

Definition file (self : t) (name : string) (content : option string) : io FS Path :=
  let* p := child self name in
  match content with
  | Some c =>
      mkdir true true (parent p) ;;
      write_text p c ;;
      ret p
  | None => ret p
  end.

Definition subdir (self : t) (name : string) : io FS Path :=
  let* p := child self name in
  mkdir true true p ;;
  ret p.
End Methods.

Section Lifetime.
Context {FS : Type} `{FileSystem FS} `{PathProbe FS}.
Local Open Scope io_scope.

(** The [path] and [name] properties. *)
Definition path (self : t) : option Path := _path self.

Definition name (self : t) : string :=
  match _path self with
  | Some p => path_str p
  | None => ""
  end.

(** [_cleanup]: whatever the removal raises is dropped. *)
Definition _cleanup (self : t) : io FS unit :=
  try_except
    (match _path self with
     | Some p =>
         let* there := path_exists p in
         if there then rmtree p else ret tt
     | None => ret tt
     end)
    (fun _ => ret tt).

Definition cleanup (self : t) : io FS unit := _cleanup self.

Definition __exit__ (self : t) : io FS unit :=
  if delete self then _cleanup self else ret tt.

(** [with d as td: body(td)], [create] having stored the directory
    [made] that [tempfile.mkdtemp] answered: the body runs, then
    [__exit__], which returns [None] and so lets the body's exception
    through.  The exit-time hook [create] registers is outside the
    embedding. *)
Definition scope {A} (self : t) (made : Path) (body : t -> io FS A) : io FS A :=
  fun fs =>
    let td := created self made in
    let '(r, fs1) := body td fs in
    match __exit__ td fs1 with
    | (Ok _, fs2) => (r, fs2)
    | (Raise e, fs2) => (Raise e, fs2)
    end.
End Lifetime.
End TempDir.

(** ** TempFile *)

(** What [write] accepts and [read] returns: [str] or [bytes]. *)
Inductive data : Type :=
  | Str (s : string)
  | Bytes (b : list Byte.byte).

(** The stream object [os.fdopen] returns. *)
Class Stream (S : Type) : Type := {
  stream_write : data -> io S nat;
  stream_seek : nat -> io S unit;
  stream_read : io S data;
  stream_close : io S unit
}.

Module TempFile.
Section Handle.
Context {S : Type} `{Stream S}.

Record t : Type := {
  suffix : string;
  prefix : string;
  dir : option string;
  delete : bool;
  text : bool;
  _fd : option Z;
  _path : option Path;
  _file : option S
}.

Definition init (suffix prefix : string) (dir : option string) (delete text : bool) : t :=
  {| suffix := suffix; prefix := prefix; dir := dir; delete := delete; text := text;
     _fd := None; _path := None; _file := None |}.

Definition set_file (self : t) (f : option S) : t :=
  {| suffix := suffix self; prefix := prefix self; dir := dir self;
     delete := delete self; text := text self;
     _fd := _fd self; _path := _path self; _file := f |}.

(** [create], given what [tempfile.mkstemp] and [os.fdopen] returned. *)
Definition create (fd : Z) (p : Path) (f : S) : io t unit :=
  fun self =>
    (Ok tt, {| suffix := suffix self; prefix := prefix self; dir := dir self;
               delete := delete self; text := text self;
               _fd := Some fd; _path := Some p; _file := Some f |}).

(** Run a stream operation on the handle's open stream. *)
Definition on_stream {A} (f : S) (m : io S A) : io t A :=
  fun self => let '(r, f') := m f in (r, set_file self (Some f')).

Definition write (d : data) : io t nat :=
  fun self =>
    match _file self with
    | Some f => on_stream f (stream_write d) self
    | None => (Ok 0%nat, self)
    end.

Definition read : io t data :=
  fun self =>
    match _file self with
    | Some f =>
        on_stream f (bind (stream_seek 0%nat) (fun _ => stream_read)) self
    | None => (Ok (if text self then Str "" else Bytes []), self)
    end.

Definition close : io t unit :=
  fun self =>
    match _file self with
    | Some f =>
        match stream_close f with
        | (Ok _, _) => (Ok tt, set_file self None)
        | (Raise e, f') => (Raise e, set_file self (Some f'))
        end
    | None => (Ok tt, self)
    end.
End Handle.
Arguments t S : clear implicits.

Section Lifetime.
Context {S : Type} `{Stream S} {FS : Type} `{FileSystem FS} `{PathProbe FS}.
Local Open Scope io_scope.

(** The [path] and [name] properties. *)
Definition path (self : t S) : option Path := _path self.

Definition name (self : t S) : string :=
  match _path self with
  | Some p => path_str p
  | None => ""
  end.

(** [_cleanup]: whatever the removal raises is dropped. *)
Definition _cleanup (self : t S) : io FS unit :=
  try_except
    (match _path self with
     | Some p =>
         let* there := path_exists p in
         if there then unlink p else ret tt
     | None => ret tt
     end)
    (fun _ => ret tt).

(** [__exit__], on the handle and the filesystem: [close] first, and
    what it raises leaves before the removal is tried. *)
Definition __exit__ : io (t S * FS) unit :=
  fun '(self, fs) =>
    match close self with
    | (Raise e, self') => (Raise e, (self', fs))
    | (Ok _, self') =>
        if delete self' then
          let '(r, fs') := _cleanup self' fs in (r, (self', fs'))
        else (Ok tt, (self', fs))
    end.

(** [with f as tf: body], [create] having stored what
    [tempfile.mkstemp] and [os.fdopen] answered. *)
Definition scope {A} (fd : Z) (made : Path) (f : S)
    (body : io (t S * FS) A) : io (t S * FS) A :=
  fun '(self, fs) =>
    let tf := snd (create fd made f self) in
    let '(r, w1) := body (tf, fs) in
    match __exit__ w1 with
    | (Ok _, w2) => (r, w2)
    | (Raise e, w2) => (Raise e, w2)
    end.
End Lifetime.
End TempFile.

(** ** temp_file and temp_dir

    The two generator functions wrapped by [contextmanager]: the handle is
    built, entered, its path handed to the body, and left when the body is
    done or has raised. *)

Section ContextManagers.
Context {S : Type} `{Stream S} {FS : Type} `{FileSystem FS} `{PathProbe FS}.


End ContextManagers.

(** ** Notions used to state the properties *)

(** Popping a list of keys one after the other; [None] if one is missing. *)
Fixpoint dict_pop_all {V} (ks : list string) (d : dict V) : option (dict V) :=
  match ks with
  | [] => Some d
  | k :: rest =>
      match dict_pop k d with
      | Some (_, d') => dict_pop_all rest d'
      | None => None
      end
  end.

(** The entries the first loop of [cleanup] selects, and the ones it keeps. *)
Definition eligible (self : TempManager) (force : bool) (now : datetime)
    (kv : string * TempFileInfo) : bool :=
  should_remove self force now (snd kv).

Definition kept (self : TempManager) (force : bool) (now : datetime) : dict TempFileInfo :=
  List.filter (fun kv => negb (eligible self force now kv)) (_files self).

Definition same_config (a b : TempManager) : Prop :=
  base_dir a = base_dir b /\ auto_cleanup a = auto_cleanup b /\ max_age a = max_age b.

(** A log record reports a failure on the path of one of the given entries. *)
Definition reports (d : dict TempFileInfo) (ks : list string) (pe : Path * exn) : Prop :=
  exists key info, key ∈ ks /\ (key, info) ∈ d /\ fst pe = path info.


(** The account a removal pass is to give: the entries are taken in
    order, each on the filesystem the removals before it have left; an
    entry whose removal raises nothing is counted, an entry whose removal
    raises is reported with its path and the exception, and is not
    counted. *)
Section Account.
Context {FS : Type} `{FileSystem FS}.

End Account.

(** The tracked entries whose object was on the filesystem before and is
    gone after. *)
Definition removed_by (before after : posix) (d : dict TempFileInfo) : nat :=
  length (List.filter
    (fun kv => bool_decide (is_Some (node_at before (path (snd kv))))
               && bool_decide (node_at after (path (snd kv)) = None)) d).

(** What a registry promises about its keys. *)
Definition keyed_by_path (self : TempManager) : Prop :=
  NoDup (keys (_files self))
  /\ forall k info, (k, info) ∈ _files self -> k = path_str (path info).

Definition all_under_base (self : TempManager) : Prop :=
  forall k info, (k, info) ∈ _files self -> is_under (base_dir self) (path info).

(** A path that names its object without help from the filesystem: it
    starts at the root ["/"] and has no [".."] among its components.  With
    no links about, two such paths name the same object only when they are
    equal, and one lies below the other only when its components continue
    the other's. *)
Definition resolved (p : Path) : bool :=
  match p with
  | c :: rest => String.eqb c "/" && forallb (fun x => negb (String.eqb x "..")) rest
  | [] => false
  end.

(** A name that does not begin with a slash. *)
Definition relative_name (s : string) : bool :=
  match s with
  | String c _ => negb (Ascii.eqb c slash)
  | EmptyString => true
  end.

(** ** Scenarios

    Small worlds reached through the manager's own calls, over a base
    directory [/b] that holds nothing. *)

Module Scenario.
Definition base : Path := ["/"; "b"].

(** An empty manager, [auto_cleanup] off. *)
Definition fresh : @World posix :=
  {| w_self := {| base_dir := base; auto_cleanup := false; max_age := 3600; _files := [] |};
     w_fs := {| nodes := {[ base := Dir ]}; faults := ∅ |};
     w_log := [] |}.

(** The world a call leaves. *)
Definition after {A} (m : io (@World posix) A) (w : @World posix) : @World posix :=
  snd (m w).

(** The paths made below, from the uuids 1 and 2. *)
Definition path1 : Path := (base ++ ["00000000000000000000000000000001"])%list.
Definition path2 : Path := (base ++ ["00000000000000000000000000000002"])%list.
Definition path12 : Path := (path1 ++ ["00000000000000000000000000000002"])%list.

Definition entry (p : Path) (made : datetime) (exp : option datetime) : TempFileInfo :=
  {| path := p; created := made; expires := exp; auto_delete := true |}.

(** [create_file(ttl=1)] at time 0: one tracked file, expiring after a
    second. *)
Definition tracked : @World posix :=
  after (create_file "" "" (Some 1) 1%N 0 0) fresh.



(** [d = create_dir(ttl=1)] at time 0, then
    [create_file(prefix=d.name + "/")]: a tracked file without expiry
    inside a tracked directory that expires. *)
Definition nested : @World posix :=
  after (create_file "" "00000000000000000000000000000001/" None 2%N 5 5)
    (after (create_dir "" (Some 1) 1%N 0 0) fresh).

(** [create_file(ttl=1)], then [create_file()]. *)
Definition mixed : @World posix :=
  after (create_file "" "" None 2%N 5 5) tracked.

(** A directory handle on the base directory. *)
Definition handle : TempDir.t :=
  TempDir.created (TempDir.init "" "road_" None true) base.
End Scenario.

(** No regular file at [q]. *)
Definition no_file (fs : posix) (q : Path) : Prop :=
  forall c, node_at fs q <> Some (File c).

(** [p] is a directory whose parent exists: a second [mkdir] of it, with
    [exist_ok], has nothing to do. *)
Definition settled (fs : posix) (p : Path) : Prop :=
  node_at fs p = Some Dir /\ parent_check p fs <> Some FileNotFoundError.

(** A text stream held in memory, in the manner of [io.StringIO]: writing
    overwrites from the position on, reading returns what follows it. *)
Record buffer : Type := {
  content : string;
  position : nat
}.

Definition buffer_write (d : data) : io buffer nat :=
  fun b =>
    match d with
    | Str s =>
        let n := String.length s in
        (Ok n,
         {| content :=
              String.substring 0 (position b) (content b) +:+ s
              +:+ String.substring (position b + n)
                    (String.length (content b) - (position b + n)) (content b);
            position := (position b + n)%nat |})
    | Bytes _ => (Raise TypeError, b)
    end.

#[global] Instance buffer_stream : Stream buffer := {
  stream_write := buffer_write;
  stream_seek n := fun b => (Ok tt, {| content := content b; position := n |});
  stream_read := fun b =>
    (Ok (Str (String.substring (position b)
                (String.length (content b) - position b) (content b))),
     {| content := content b; position := String.length (content b) |});
  stream_close := fun b => (Ok tt, b)
}.

(** From one filesystem to a later one, objects have only gone: each path
    holds what it held or nothing, and the refusals are the same. *)
Definition dwindles (before after : posix) : Prop :=
  faults after = faults before
  /\ forall q, node_at after q = node_at before q \/ node_at after q = None.

(** A string without a slash. *)
Fixpoint no_slash (s : string) : bool :=
  match s with
  | EmptyString => true
  | String c r => negb (Ascii.eqb c slash) && no_slash r
  end.


(** * Properties *)

(** ** Facts about the dict operations *)

Section DictFacts.
Context {V : Type}.
Implicit Types (d : dict V) (k : string) (v : V).

Lemma dict_pop_head k v d : dict_pop k ((k, v) :: d) = Some (v, d).
Proof. simpl. by rewrite String.eqb_refl. Qed.

Lemma dict_pop_Some k d v d' :
  dict_pop k d = Some (v, d') ->
  (k, v) ∈ d /\ d' ⊆ d /\ keys d ≡ₚ k :: keys d'.
Proof.
  revert v d'. induction d as [|[k0 v0] tl IH]; intros v d' Hp; simpl in Hp; [done|].
  destruct (String.eqb_spec k k0) as [->|Hne].
  - injection Hp as <- <-. split; [left|]. split; [|done].
    intros x Hx. by right.
  - destruct (dict_pop k tl) as [[x tl']|] eqn:E; [|done].
    injection Hp as <- <-. destruct (IH _ _ eq_refl) as (Hin & Hsub & Hperm).
    split; [by right|]. split.
    { intros y Hy. apply elem_of_cons in Hy as [->|Hy]; [left|right; by apply Hsub]. }
    simpl. rewrite Hperm. apply Permutation_swap.
Qed.

Lemma dict_pop_is_Some k d : k ∈ keys d -> is_Some (dict_pop k d).
Proof.
  induction d as [|[k0 v0] tl IH]; simpl; intros Hin; [by apply elem_of_nil in Hin|].
  destruct (String.eqb_spec k k0) as [->|Hne]; [by eexists|].
  apply elem_of_cons in Hin as [->|Hin]; [done|].
  destruct (IH Hin) as [[x tl'] ->]. by eexists.
Qed.

Lemma dict_pop_skip k pre d :
  k ∉ keys pre ->
  dict_pop k (pre ++ d)%list =
    match dict_pop k d with
    | Some (v, d') => Some (v, (pre ++ d')%list)
    | None => None
    end.
Proof.
  induction pre as [|[k0 v0] pre IH]; simpl; intros Hni.
  - by destruct (dict_pop k d) as [[? ?]|].
  - apply not_elem_of_cons in Hni as [Hne Hni].
    destruct (String.eqb_spec k k0) as [->|_]; [done|].
    rewrite (IH Hni). by destruct (dict_pop k d) as [[? ?]|].
Qed.

Lemma dict_pop_all_keys d : dict_pop_all (keys d) d = Some [].
Proof.
  induction d as [|[k v] tl IH]; [done|].
  simpl. by rewrite String.eqb_refl.
Qed.

Lemma dict_pop_all_submseteq ks d : ks ⊆+ keys d -> is_Some (dict_pop_all ks d).
Proof.
  revert d. induction ks as [|k rest IH]; intros d Hsub; simpl; [by eexists|].
  assert (Hin : k ∈ keys d).
  { eapply elem_of_submseteq; [|exact Hsub]. by left. }
  destruct (dict_pop_is_Some _ _ Hin) as [[v d'] Hp]. rewrite Hp.
  apply IH. apply dict_pop_Some in Hp as (_ & _ & Hperm).
  rewrite Hperm in Hsub. by apply (submseteq_app_inv_l _ _ [k]).
Qed.

Lemma keys_filter_sublist (P : string * V -> bool) d :
  keys (List.filter P d) `sublist_of` keys d.
Proof.
  induction d as [|x tl IH]; simpl; [done|].
  destruct (P x); simpl; [by apply sublist_skip | by apply sublist_cons].
Qed.

Lemma keys_filter_submseteq (P : string * V -> bool) d :
  keys (List.filter P d) ⊆+ keys d.
Proof. apply sublist_submseteq, keys_filter_sublist. Qed.

Lemma keys_filter_NoDup (P : string * V -> bool) d :
  NoDup (keys d) -> NoDup (keys (List.filter P d)).
Proof. intros Hnd. eapply sublist_NoDup; [done|apply keys_filter_sublist]. Qed.

Lemma keys_filter_elem (P : string * V -> bool) d k :
  k ∈ keys (List.filter P d) -> exists v, (k, v) ∈ d /\ P (k, v) = true.
Proof.
  induction d as [|[k0 v0] tl IH]; simpl; intros Hin; [by apply elem_of_nil in Hin|].
  destruct (P (k0, v0)) eqn:E.
  - simpl in Hin. apply elem_of_cons in Hin as [->|Hin].
    + exists v0. split; [left|done].
    + destruct (IH Hin) as (v & ? & ?). exists v. split; [by right|done].
  - destruct (IH Hin) as (v & ? & ?). exists v. split; [by right|done].
Qed.

(** With each key at most once, popping the selected keys leaves exactly
    the entries that were not selected, in their order. *)
Lemma dict_pop_all_filter (P : string * V -> bool) pre d :
  NoDup (keys (pre ++ d)%list) ->
  dict_pop_all (keys (List.filter P d)) (pre ++ d)%list =
    Some (pre ++ List.filter (fun kv => negb (P kv)) d)%list.
Proof.
  revert pre. induction d as [|[k v] tl IH]; intros pre Hnd; simpl; [done|].
  destruct (P (k, v)) eqn:E; simpl.
  - assert (Hni : k ∉ keys pre).
    { unfold keys in *. rewrite map_app in Hnd. simpl in Hnd.
      apply NoDup_app in Hnd as (_ & Hd & _). intros Hin. apply (Hd _ Hin). by left. }
    rewrite (dict_pop_skip _ _ _ Hni), dict_pop_head.
    apply IH. unfold keys in *. rewrite !map_app in *. simpl in Hnd.
    apply NoDup_app in Hnd as (H1 & H2 & H3). apply NoDup_cons in H3 as [_ H3].
    apply NoDup_app. split; [done|]. split; [|done].
    intros x Hx Hx'. apply (H2 _ Hx). by right.
  - specialize (IH (pre ++ [(k, v)])%list).
    rewrite <- !app_assoc in IH. simpl in IH. by apply IH.
Qed.

Lemma dict_get_elem k d v : dict_get k d = Some v -> (k, v) ∈ d.
Proof.
  induction d as [|[k0 v0] tl IH]; simpl; [done|].
  destruct (String.eqb_spec k k0) as [->|_].
  - intros [= ->]. left.
  - intros Hg. right. by apply IH.
Qed.

Lemma dict_get_NoDup k d v : NoDup (keys d) -> (k, v) ∈ d -> dict_get k d = Some v.
Proof.
  induction d as [|[k0 v0] tl IH]; simpl; intros Hnd Hin; [by apply elem_of_nil in Hin|].
  apply NoDup_cons in Hnd as [Hni Hnd].
  apply elem_of_cons in Hin as [[= -> ->]|Hin]; [by rewrite String.eqb_refl|].
  destruct (String.eqb_spec k k0) as [->|_]; [|by apply IH].
  exfalso. apply Hni. unfold keys. apply list_elem_of_fmap. by exists (k0, v).
Qed.

Lemma keys_dict_set k v d :
  keys (dict_set k v d) = if bool_decide (k ∈ keys d) then keys d else (keys d ++ [k])%list.
Proof.
  induction d as [|[k0 v0] tl IH]; simpl; [done|].
  destruct (String.eqb_spec k k0) as [->|Hne]; simpl.
  - rewrite bool_decide_eq_true_2; [done|left].
  - rewrite IH. destruct (bool_decide (k ∈ keys tl)) eqn:E.
    + apply bool_decide_eq_true in E. rewrite bool_decide_eq_true_2; [done|by right].
    + apply bool_decide_eq_false in E. rewrite bool_decide_eq_false_2; [done|].
      intros Hin. apply elem_of_cons in Hin as [?|?]; done.
Qed.

Lemma dict_set_NoDup k v d : NoDup (keys d) -> NoDup (keys (dict_set k v d)).
Proof.
  intros Hnd. rewrite keys_dict_set. case_bool_decide as Hin; [done|].
  apply NoDup_app. split; [done|]. split; [|apply NoDup_singleton].
  intros x Hx Hx'. apply list_elem_of_singleton in Hx'. by subst.
Qed.

Lemma dict_set_elem k v d k' v' :
  (k', v') ∈ dict_set k v d -> (k', v') = (k, v) \/ (k', v') ∈ d.
Proof.
  induction d as [|[k0 v0] tl IH]; simpl; intros Hin.
  - apply list_elem_of_singleton in Hin. by left.
  - destruct (String.eqb_spec k k0) as [->|_].
    + apply elem_of_cons in Hin as [?|?]; [by left|right; by right].
    + apply elem_of_cons in Hin as [->|Hin]; [right; left|].
      destruct (IH Hin); [by left|right; by right].
Qed.

Lemma dict_get_set k v d : dict_get k (dict_set k v d) = Some v.
Proof.
  induction d as [|[k0 v0] tl IH]; simpl; [by rewrite String.eqb_refl|].
  destruct (String.eqb_spec k k0) as [->|Hne]; simpl.
  - by rewrite String.eqb_refl.
  - destruct (String.eqb_spec k k0); done.
Qed.
End DictFacts.

(** ** Facts about paths *)

Lemma is_root_first (c : ascii) (s : string) :
  c <> slash -> is_root (String c s) = false.
Proof.
  intros Hne. unfold is_root. simpl.
  destruct (Ascii.eqb_spec c "/"%char) as [->|_]; done.
Qed.

Lemma split_slash_no_root (s : string) :
  Forall (fun c => is_root c = false) (split_slash s).
Proof.
  induction s as [|c rest IH]; simpl.
  - by repeat constructor.
  - destruct (Ascii.eqb_spec c slash) as [->|Hne].
    + by constructor.
    + destruct (split_slash rest) as [|hd tl].
      * constructor; [by apply is_root_first|done].
      * apply Forall_cons in IH as [_ IH]. constructor; [by apply is_root_first|done].
Qed.

Lemma relative_name_root (s : string) : relative_name s = true -> root_of s = None.
Proof.
  destruct s as [|c1 [|c2 [|c3 s]]]; simpl; [done|..];
    destruct (Ascii.eqb c1 slash); done.
Qed.

Lemma relative_name_parse (s : string) :
  relative_name s = true -> is_absolute (parse_path s) = false.
Proof.
  intros Hrel. unfold parse_path. rewrite (relative_name_root _ Hrel).
  pose proof (split_slash_no_root s) as Hall.
  induction Hall as [|c l Hc _ IH]; simpl; [done|].
  destruct (keep_component c); simpl; done.
Qed.

Lemma hex_digit_not_slash (d : N) : Ascii.eqb (hex_digit d) slash = false.
Proof.
  destruct d as [|p]; [done|].
  do 4 (destruct p as [p|p|]; try done).
Qed.

Lemma relative_name_prefixed (prefix suffix : string) (u : N) :
  relative_name prefix = true ->
  relative_name (prefix +:+ uuid_hex u +:+ suffix) = true.
Proof.
  destruct prefix as [|c r]; simpl; [|done].
  intros _. by rewrite hex_digit_not_slash.
Qed.

Lemma append_empty (s : string) : s +:+ "" = s.
Proof.
  induction s as [|c r IH]; [done|].
  change (String c (r +:+ "") = String c r). by rewrite IH.
Qed.

(** A relative name lands below the directory it is joined to. *)
Lemma joinpath_under (base : Path) (name : string) :
  relative_name name = true -> is_under base (joinpath base name).
Proof.
  intros Hrel. unfold joinpath. rewrite (relative_name_parse _ Hrel).
  by apply prefix_app_r.
Qed.

Lemma parent_prefix (p : Path) : parent p `prefix_of` p.
Proof.
  unfold parent. destruct (is_anchor p); [done|].
  destruct p as [|c tl] using rev_ind; [done|].
  rewrite removelast_last. by apply prefix_app_r.
Qed.

Lemma parent_length (p : Path) :
  is_anchor p = false -> (length (parent p) < length p)%nat.
Proof.
  intros Ha. unfold parent. rewrite Ha.
  destruct p as [|c tl] using rev_ind; [done|].
  rewrite removelast_last, length_app. simpl. lia.
Qed.

Lemma anchor_parent (p : Path) : is_anchor p = true -> parent p = p.
Proof. intros Ha. unfold parent. by rewrite Ha. Qed.

Lemma not_prefix_of_parent (p : Path) :
  is_anchor p = false -> ~ p `prefix_of` parent p.
Proof.
  intros Ha Hpre. apply prefix_length in Hpre.
  pose proof (parent_length p Ha). lia.
Qed.

(** ** The removal loop, over any filesystem *)

Section ManagerFacts.
Context {FS : Type} `{FileSystem FS}.
Implicit Types (w : @World FS) (self : TempManager).

Lemma same_config_set_files self d : same_config (set_files self d) self.
Proof. by destruct self. Qed.

(** One turn of the loop: the entry is popped, then the removal either
    succeeds and is counted, or raises and is logged. *)
Lemma remove_one_eq key count w info d' :
  dict_pop key (_files (w_self w)) = Some (info, d') ->
  remove_one key count w =
    match remove_path info (w_fs w) with
    | (Ok _, fs') =>
        (Ok (S count),
         {| w_self := set_files (w_self w) d'; w_fs := fs'; w_log := w_log w |})
    | (Raise e, fs') =>
        (Ok count,
         {| w_self := set_files (w_self w) d'; w_fs := fs';
            w_log := (w_log w ++ [(path info, e)])%list |})
    end.
Proof.
  intros Hp. unfold remove_one, bind, get_self. rewrite Hp.
  unfold put_files, try_except, bind, on_fs, logger_error, ret. simpl.
  by destruct (remove_path info (w_fs w)) as [[[]|e] fs'].
Qed.

Lemma remove_all_spec ks : forall count w d',
  dict_pop_all ks (_files (w_self w)) = Some d' ->
  exists n w' failed,
    remove_all ks count w = (Ok n, w')
    /\ _files (w_self w') = d'
    /\ same_config (w_self w') (w_self w)
    /\ w_log w' = (w_log w ++ failed)%list
    /\ (n + length failed = count + length ks)%nat
    /\ Forall (reports (_files (w_self w)) ks) failed.
Proof.
  induction ks as [|key rest IH]; intros count w d' Hpop; simpl in Hpop.
  - injection Hpop as <-. exists count, w, []. simpl. unfold ret.
    rewrite app_nil_r. repeat split; auto with lia.
  - destruct (dict_pop key (_files (w_self w))) as [[info d1]|] eqn:Hp; [|done].
    pose proof (remove_one_eq key count w info d1 Hp) as Hone.
    pose proof (dict_pop_Some _ _ _ _ Hp) as (Hin & Hsub & _).
    simpl. unfold bind at 1.
    destruct (remove_path info (w_fs w)) as [[[]|e] fs'] eqn:Hrm; rewrite Hone.
    + destruct (IH (S count)
          {| w_self := set_files (w_self w) d1; w_fs := fs'; w_log := w_log w |} d' Hpop)
        as (n & w' & failed & Heq & Hf & Hc & Hl & Hn & Hrep).
      exists n, w', failed. rewrite Heq. simpl in *.
      destruct (w_self w) as [b a m f]; simpl in *.
      repeat split; try apply Hc; auto with lia.
      eapply Forall_impl; [exact Hrep|]. intros pe (k & i & Hk & Hki & Hpe).
      exists k, i. split; [by right|]. split; [by apply Hsub|done].
    + destruct (IH count
          {| w_self := set_files (w_self w) d1; w_fs := fs';
             w_log := (w_log w ++ [(path info, e)])%list |} d' Hpop)
        as (n & w' & failed & Heq & Hf & Hc & Hl & Hn & Hrep).
      exists n, w', ((path info, e) :: failed). rewrite Heq. simpl in *.
      destruct (w_self w) as [b a m f]; simpl in *.
      repeat split; try apply Hc; auto with lia.
      * rewrite Hl. by rewrite <- app_assoc.
      * apply Forall_cons. split.
        { exists key, info. split; [left|]. split; done. }
        eapply Forall_impl; [exact Hrep|]. intros pe (k & i & Hk & Hki & Hpe).
        exists k, i. split; [by right|]. split; [by apply Hsub|done].
Qed.

(** Whatever holds between the filesystem before and after each single
    removal holds across the loop. *)
Lemma remove_all_fs (R : FS -> FS -> Prop) ks :
  (forall fs, R fs fs) ->
  (forall a b c, R a b -> R b c -> R a c) ->
  forall count w,
    (forall key info fs, key ∈ ks -> (key, info) ∈ _files (w_self w) ->
       R fs (snd (remove_path info fs))) ->
    R (w_fs w) (w_fs (snd (remove_all ks count w))).
Proof.
  intros Hrefl Htrans. induction ks as [|key rest IH]; intros count w Hstep; simpl.
  - apply Hrefl.
  - unfold bind at 1.
    destruct (dict_pop key (_files (w_self w))) as [[info d1]|] eqn:Hp.
    + pose proof (dict_pop_Some _ _ _ _ Hp) as (Hin & Hsub & _).
      rewrite (remove_one_eq key count w info d1 Hp).
      assert (Hone : R (w_fs w) (snd (remove_path info (w_fs w)))).
      { apply (Hstep key); [left|done]. }
      destruct (remove_path info (w_fs w)) as [[[]|e] fs']; simpl in Hone;
        (eapply Htrans; [exact Hone|]);
        match goal with |- R _ (w_fs (snd (remove_all _ ?c ?w1))) =>
          apply (IH c w1) end;
        intros k i fs Hk Hki; (apply (Hstep k); [by right | by apply Hsub]).
    + unfold remove_one, bind, get_self. rewrite Hp. simpl. apply Hrefl.
Qed.

Lemma to_remove_keys self force now :
  to_remove self force now = keys (List.filter (eligible self force now) (_files self)).
Proof. reflexivity. Qed.

Lemma to_remove_force self now : to_remove self true now = keys (_files self).
Proof.
  unfold to_remove, keys. f_equal.
  induction (_files self) as [|x tl IH]; simpl; [done|]. by rewrite IH.
Qed.

(** [cleanup] always returns: every key it selected is still there to be
    popped. *)
Lemma cleanup_pops self force now :
  is_Some (dict_pop_all (to_remove self force now) (_files self)).
Proof. apply dict_pop_all_submseteq, keys_filter_submseteq. Qed.

Lemma cleanup_spec force now w :
  exists n w' failed,
    cleanup force now w = (Ok n, w')
    /\ dict_pop_all (to_remove (w_self w) force now) (_files (w_self w))
         = Some (_files (w_self w'))
    /\ same_config (w_self w') (w_self w)
    /\ w_log w' = (w_log w ++ failed)%list
    /\ (n + length failed = length (to_remove (w_self w) force now))%nat
    /\ Forall (reports (_files (w_self w)) (to_remove (w_self w) force now)) failed.
Proof.
  destruct (cleanup_pops (w_self w) force now) as [d' Hd'].
  destruct (remove_all_spec _ 0%nat w d' Hd')
    as (n & w' & failed & Heq & Hf & Hc & Hl & Hn & Hrep).
  exists n, w', failed. unfold cleanup, bind, get_self. rewrite Heq, Hf.
  repeat split; try apply Hc; done.
Qed.




Lemma kept_spec self force now :
  NoDup (keys (_files self)) ->
  dict_pop_all (to_remove self force now) (_files self) = Some (kept self force now).
Proof. intros Hnd. apply (dict_pop_all_filter _ []). exact Hnd. Qed.
End ManagerFacts.

(** ** Removal in the filesystem model *)

Lemma node_at_delete (fs : posix) (p q : Path) :
  p <> q ->
  node_at {| nodes := delete p (nodes fs); faults := faults fs |} q = node_at fs q.
Proof.
  intros Hne. unfold node_at. simpl. destruct (is_anchor q); [done|].
  by rewrite lookup_delete_ne.
Qed.

Lemma node_at_prune (fs : posix) (p q : Path) :
  ~ p `prefix_of` q ->
  node_at {| nodes := filter (fun kv => ~ p `prefix_of` fst kv) (nodes fs);
             faults := faults fs |} q = node_at fs q.
Proof.
  intros Hnp. unfold node_at. simpl. destruct (is_anchor q); [done|].
  destruct (nodes fs !! q) as [x|] eqn:E.
  - by apply map_lookup_filter_Some_2.
  - apply map_lookup_filter_None_2. by left.
Qed.

(** A removal leaves alone whatever is not at or below the removed path. *)
Lemma remove_path_frame (info : TempFileInfo) (fs : posix) (q : Path) :
  ~ path info `prefix_of` q ->
  node_at (snd (remove_path info fs)) q = node_at fs q.
Proof.
  intros Hnp. unfold remove_path, bind. simpl.
  unfold posix_is_file, posix_is_dir, posix_unlink, posix_rmtree.
  destruct (node_at fs (path info)) as [[c|]|] eqn:E; simpl; rewrite ?E; simpl; [| |done].
  - destruct (faults fs !! path info); simpl; [done|].
    apply node_at_delete. intros Heq. apply Hnp. by rewrite Heq.
  - destruct (tree_fault fs (path info)); simpl; [done|].
    by apply node_at_prune.
Qed.



Lemma same_key_same_entry {V} (d : dict V) k v v' :
  NoDup (keys d) -> (k, v) ∈ d -> (k, v') ∈ d -> v = v'.
Proof.
  intros Hnd H1 H2.
  apply (dict_get_NoDup _ _ _ Hnd) in H1. apply (dict_get_NoDup _ _ _ Hnd) in H2.
  congruence.
Qed.

Lemma elem_of_kept self force now k info :
  (k, info) ∈ kept self force now <->
  (k, info) ∈ _files self /\ should_remove self force now info = false.
Proof.
  unfold kept. rewrite !list_elem_of_In, filter_In, negb_true_iff. done.
Qed.

(** ** Making directories in the filesystem model *)

Lemma node_at_anchor (fs : posix) (p : Path) :
  is_anchor p = true -> node_at fs p = Some Dir.
Proof. intros Ha. unfold node_at. by rewrite Ha. Qed.

Lemma node_at_set_node (fs : posix) (p q : Path) (n : node) :
  node_at (set_node fs p n) q =
    if is_anchor q then Some Dir
    else if bool_decide (p = q) then Some n else node_at fs q.
Proof.
  unfold node_at, set_node. simpl. destruct (is_anchor q) eqn:Ha; [done|].
  rewrite lookup_insert. case_decide; by case_bool_decide.
Qed.

Lemma os_mkdir_ok (p : Path) (fs fs' : posix) :
  os_mkdir p fs = (Ok tt, fs') ->
  parent_check p fs = None /\ node_at fs p = None /\ fs' = set_node fs p Dir.
Proof.
  unfold os_mkdir. destruct (parent_check p fs); [done|].
  destruct (node_at fs p); [done|]. by intros [= <-].
Qed.

Lemma os_mkdir_raise (p : Path) (fs fs' : posix) (e : exn) :
  os_mkdir p fs = (Raise e, fs') ->
  fs' = fs
  /\ (parent_check p fs = Some e
      \/ (parent_check p fs = None /\ e = FileExistsError /\ node_at fs p <> None)).
Proof.
  unfold os_mkdir. destruct (parent_check p fs) as [e0|] eqn:E.
  - intros [= <- <-]. auto.
  - destruct (node_at fs p) eqn:En; [|done]. intros [= <- <-]. auto.
Qed.

(** Without [parents] there is no recursion, and with it a path's length is
    fuel enough: more changes nothing. *)
Lemma mkdir_fuel_no_parents (n m : nat) (exist_ok : bool) (p : Path) (fs : posix) :
  mkdir_fuel n false exist_ok p fs = mkdir_fuel m false exist_ok p fs.
Proof. by destruct n, m. Qed.

Lemma mkdir_fuel_enough (n : nat) : forall m parents exist_ok p fs,
  (length p <= n)%nat -> (length p <= m)%nat ->
  mkdir_fuel n parents exist_ok p fs = mkdir_fuel m parents exist_ok p fs.
Proof.
  induction n as [|n IH]; intros m parents exist_ok p fs Hn Hm.
  - destruct p; [|simpl in Hn; lia]. by destruct m.
  - destruct m as [|m].
    { destruct p; [|simpl in Hm; lia]. done. }
    simpl. destruct (os_mkdir p fs) as [[[]|e] fs']; [done|].
    destruct e; try done.
    destruct parents; simpl; [|done].
    case_bool_decide as Hpar; [done|].
    assert (Ha : is_anchor p = false).
    { destruct (is_anchor p) eqn:Ha; [|done]. by destruct Hpar; apply anchor_parent. }
    pose proof (parent_length p Ha) as Hl.
    rewrite (IH m true true (parent p) fs') by lia.
    destruct (mkdir_fuel m true true (parent p) fs') as [[[]|e'] fs'']; [|done].
    apply mkdir_fuel_no_parents.
Qed.

(** A directory that is settled stays as it is under [mkdir(exist_ok=True)]. *)
Lemma mkdir_settled (n : nat) (parents : bool) (p : Path) (fs : posix) :
  settled fs p -> mkdir_fuel n parents true p fs = (Ok tt, fs).
Proof.
  intros [Hd Hp].
  assert (Hos : exists e, os_mkdir p fs = (Raise e, fs) /\ e <> FileNotFoundError).
  { unfold os_mkdir. destruct (parent_check p fs) as [e|] eqn:E.
    - exists e. split; [done|]. congruence.
    - rewrite Hd. by exists FileExistsError. }
  destruct Hos as (e & Hos & Hne).
  destruct n; simpl; rewrite Hos, Hd; by destruct e.
Qed.

(** Whenever [mkdir] returns, the directory is settled. *)
Lemma mkdir_settles (n : nat) : forall parents exist_ok p fs fs',
  mkdir_fuel n parents exist_ok p fs = (Ok tt, fs') -> settled fs' p.
Proof.
  assert (Hfresh : forall p fs fs', os_mkdir p fs = (Ok tt, fs') -> settled fs' p).
  { intros p fs fs' (Hpc & Hn & ->)%os_mkdir_ok.
    assert (Ha : is_anchor p = false).
    { destruct (is_anchor p) eqn:Ha; [|done]. by rewrite node_at_anchor in Hn. }
    split.
    - rewrite node_at_set_node, Ha. by rewrite bool_decide_eq_true_2.
    - unfold parent_check in *. rewrite node_at_set_node.
      destruct (is_anchor (parent p)); [done|]. case_bool_decide; [done|].
      by destruct (node_at fs (parent p)) as [[c|]|]. }
  assert (Hseen : forall exist_ok p fs fs' e,
    os_mkdir p fs = (Raise e, fs) -> e <> FileNotFoundError ->
    (if negb exist_ok || negb (match node_at fs p with Some Dir => true | _ => false end)
     then (Raise e, fs) else (Ok tt, fs)) = (Ok tt, fs') -> settled fs' p).
  { intros exist_ok p fs fs' e Hos Hne Hres.
    destruct exist_ok; simpl in Hres; [|done].
    destruct (node_at fs p) as [[c|]|] eqn:Hd; simpl in Hres; try done.
    injection Hres as <-. split; [done|].
    apply os_mkdir_raise in Hos as (_ & [Hpc|(Hpc & _)]); congruence. }
  induction n as [|n IH]; intros parents exist_ok p fs fs'; simpl;
    destruct (os_mkdir p fs) as [[[]|e] fs0] eqn:Hos.
  - intros [= <-]. by apply (Hfresh p fs).
  - pose proof (os_mkdir_raise _ _ _ _ Hos) as [-> _].
    destruct (decide (e = FileNotFoundError)) as [->|Hne].
    + by destruct (negb parents || bool_decide (parent p = p)).
    + intros Hres. apply (Hseen exist_ok p fs fs' e Hos Hne). by destruct e.
  - intros [= <-]. by apply (Hfresh p fs).
  - pose proof (os_mkdir_raise _ _ _ _ Hos) as [-> _].
    destruct (decide (e = FileNotFoundError)) as [->|Hne].
    + destruct (negb parents || bool_decide (parent p = p)); [done|].
      destruct (mkdir_fuel n true true (parent p) fs) as [[[]|e'] fs1]; [|done].
      apply IH.
    + intros Hres. apply (Hseen exist_ok p fs fs' e Hos Hne). by destruct e.
Qed.

(** With no regular file at the path or above it, [mkdir(parents=True,
    exist_ok=True)] returns, given fuel for the length of the path; it only
    adds directories, at prefixes of the path that held nothing. *)
Lemma mkdir_parents_ok (n : nat) : forall p fs,
  (length p <= n)%nat ->
  (forall q, q `prefix_of` p -> no_file fs q) ->
  exists fs',
    mkdir_fuel n true true p fs = (Ok tt, fs')
    /\ forall q, node_at fs' q = node_at fs q
                 \/ (q `prefix_of` p /\ node_at fs q = None /\ node_at fs' q = Some Dir).
Proof.
  assert (Hlast : forall m p fs,
    node_at fs (parent p) = Some Dir -> no_file fs p ->
    exists fs', mkdir_fuel m false true p fs = (Ok tt, fs')
      /\ forall q, node_at fs' q = node_at fs q
                   \/ (q = p /\ node_at fs q = None /\ node_at fs' q = Some Dir)).
  { intros m p fs Hpar Hnf.
    assert (Hpc : parent_check p fs = None) by (unfold parent_check; by rewrite Hpar).
    destruct (node_at fs p) as [[c|]|] eqn:Hd.
    - by destruct (Hnf c).
    - exists fs. split; [|by left]. apply mkdir_settled. split; [done|]. by rewrite Hpc.
    - exists (set_node fs p Dir). split.
      + destruct m; simpl; unfold os_mkdir; by rewrite Hpc, Hd.
      + intros q. rewrite node_at_set_node.
        destruct (is_anchor q) eqn:Ha; [left; by rewrite node_at_anchor|].
        case_bool_decide as Hq; [subst q; right|left]; done. }
  induction n as [|n IH]; intros p fs Hlen Hnf.
  - destruct p; [|simpl in Hlen; lia].
    exists fs. split; [|by left]. apply mkdir_settled.
    split; [done|]. unfold parent_check. by rewrite node_at_anchor.
  - destruct (node_at fs (parent p)) as [[c|]|] eqn:Hpar.
    + destruct (Hnf (parent p) (parent_prefix p) c Hpar).
    + destruct (Hlast (S n) p fs Hpar (Hnf p (reflexivity p))) as (fs' & Heq & Hfr).
      exists fs'. split.
      * revert Heq. simpl. destruct (os_mkdir p fs) as [[[]|e] fs0] eqn:Hos; [done|].
        pose proof (os_mkdir_raise _ _ _ _ Hos) as [-> [Hpc|(_ & -> & _)]]; [|done].
        unfold parent_check in Hpc. by rewrite Hpar in Hpc.
      * intros q. destruct (Hfr q) as [?|(-> & ? & ?)]; [by left|right; done].
    + assert (Ha : is_anchor p = false).
      { destruct (is_anchor p) eqn:Ha; [|done].
        by rewrite (anchor_parent p Ha), node_at_anchor in Hpar. }
      pose proof (parent_length p Ha) as Hpl.
      destruct (IH (parent p) fs) as (fs1 & Hup & Hfr1); [lia| |].
      { intros q Hq. apply Hnf. etransitivity; [exact Hq|apply parent_prefix]. }
      pose proof (mkdir_settles _ _ _ _ _ _ Hup) as [Hpd _].
      assert (Hp1 : node_at fs1 p = node_at fs p).
      { destruct (Hfr1 p) as [?|(Hpre & _)]; [done|]. by destruct (not_prefix_of_parent p Ha). }
      destruct (Hlast n p fs1 Hpd) as (fs' & Hdown & Hfr2).
      { intros c. rewrite Hp1. apply (Hnf p (reflexivity p)). }
      exists fs'. split.
      * simpl. unfold os_mkdir, parent_check. rewrite Hpar. simpl.
        rewrite bool_decide_eq_false_2; [|intros Heq; rewrite Heq in Hpl; lia].
        by rewrite Hup.
      * intros q. destruct (Hfr2 q) as [Hq|(-> & Hq1 & Hq2)].
        -- rewrite Hq. destruct (Hfr1 q) as [?|(Hpre & ? & ?)]; [by left|right].
           split; [|done]. etransitivity; [exact Hpre|apply parent_prefix].
        -- right. split; [done|]. split; [by rewrite <- Hp1|done].
Qed.

(** Whatever [mkdir] answers, it has only added directories, at prefixes of
    the path that held nothing. *)
Lemma mkdir_frame (n : nat) : forall parents exist_ok p fs r fs',
  mkdir_fuel n parents exist_ok p fs = (r, fs') ->
  forall q, node_at fs' q = node_at fs q
            \/ (q `prefix_of` p /\ node_at fs q = None /\ node_at fs' q = Some Dir).
Proof.
  assert (Hmade : forall p fs fs' q, os_mkdir p fs = (Ok tt, fs') ->
    node_at fs' q = node_at fs q
    \/ (q `prefix_of` p /\ node_at fs q = None /\ node_at fs' q = Some Dir)).
  { intros p fs fs' q (_ & Hn & ->)%os_mkdir_ok. rewrite node_at_set_node.
    destruct (is_anchor q) eqn:Ha; [left; by rewrite node_at_anchor|].
    case_bool_decide as Hq; [subst q; right|left]; done. }
  induction n as [|n IH]; intros parents exist_ok p fs r fs'; simpl;
    destruct (os_mkdir p fs) as [[[]|e] fs0] eqn:Hos.
  - intros [= <- <-] q. by apply (Hmade p).
  - pose proof (os_mkdir_raise _ _ _ _ Hos) as [-> _]. intros Hres q. left.
    destruct e; try (destruct (negb exist_ok || _)); try (destruct (negb parents || _));
      by injection Hres as <- <-.
  - intros [= <- <-] q. by apply (Hmade p).
  - pose proof (os_mkdir_raise _ _ _ _ Hos) as [-> _]. intros Hres q.
    destruct (decide (e = FileNotFoundError)) as [->|Hne].
    + destruct (negb parents || bool_decide (parent p = p));
        [left; by injection Hres as <- <-|].
      destruct (mkdir_fuel n true true (parent p) fs) as [[[]|e'] fs1] eqn:Hup.
      * destruct (IH _ _ _ _ _ _ Hres q) as [H2|(Hpre & H2 & H3)];
          destruct (IH _ _ _ _ _ _ Hup q) as [H1|(Hpre1 & H1 & H1')].
        -- left. by rewrite H2.
        -- right. split; [etransitivity; [exact Hpre1|apply parent_prefix]|].
           split; [done|]. by rewrite H2.
        -- right. split; [done|]. split; [by rewrite <- H1|done].
        -- rewrite H1' in H2. discriminate H2.
      * injection Hres as <- <-.
        destruct (IH _ _ _ _ _ _ Hup q) as [H1|(Hpre1 & H1 & H1')]; [by left|right].
        split; [etransitivity; [exact Hpre1|apply parent_prefix]|done].
    + left. destruct e; try done;
        destruct (negb exist_ok || _); by injection Hres as <- <-.
Qed.

(** A regular file at the path makes [mkdir] raise, whatever its flags. *)
Lemma mkdir_on_file_raises (n : nat) : forall parents exist_ok p fs c,
  node_at fs p = Some (File c) ->
  exists e fs', mkdir_fuel n parents exist_ok p fs = (Raise e, fs').
Proof.
  induction n as [|n IH]; intros parents exist_ok p fs c Hf; simpl;
    destruct (os_mkdir p fs) as [[[]|e] fs0] eqn:Hos;
    try (apply os_mkdir_ok in Hos as (_ & Hn & _); congruence);
    pose proof (os_mkdir_raise _ _ _ _ Hos) as [-> _].
  - destruct e; rewrite ?Hf; simpl; rewrite ?orb_true_r; try by eexists _, _.
    destruct (negb parents || _); by eexists _, _.
  - destruct (decide (e = FileNotFoundError)) as [->|Hne].
    + destruct (negb parents || bool_decide (parent p = p)); [by eexists _, _|].
      destruct (mkdir_fuel n true true (parent p) fs) as [[[]|e'] fs1] eqn:Hup;
        [|by eexists _, _].
      apply (IH false exist_ok p fs1 c).
      assert (Ha : is_anchor p = false).
      { destruct (is_anchor p) eqn:Ha; [|done]. by rewrite node_at_anchor in Hf. }
      destruct (mkdir_frame _ _ _ _ _ _ _ Hup p) as [->|(Hpre & _)]; [done|].
      by destruct (not_prefix_of_parent p Ha).
    + destruct e; try done; rewrite Hf; simpl; rewrite orb_true_r; by eexists _, _.
Qed.

(** ** C1: a ttl of zero *)

Lemma expires_of_nonzero (now t : Z) :
  t <> 0 -> expires_of now (Some t) = Some (now + timedelta_seconds t).
Proof. intros Hne. unfold expires_of. by destruct (Z.eqb_spec t 0). Qed.

(** C1. [create_file(ttl=0)] on an empty manager with [auto_cleanup] off
    registers an entry whose [expires] is unset, not [now + 0]; a
    [cleanup(force=False)] at any later time removes nothing, returns 0 and
    leaves the entry tracked. *)
Theorem create_file_ttl_zero_survives_cleanup (now : datetime) :
  exists p w1,
    create_file ".tmp" "" (Some 0) 5%N 100 100 Scenario.fresh = (Ok p, w1)
    /\ values (_files (w_self w1))
       = [{| path := p; created := 100; expires := None; auto_delete := true |}]
    /\ cleanup false now w1 = (Ok 0%nat, w1).
Proof.
  destruct (create_file ".tmp" "" (Some 0) 5%N 100 100 Scenario.fresh) as [r w1] eqn:E.
  vm_compute in E. injection E as <- <-.
  eexists _, _. split; [reflexivity|]. split; reflexivity.
Qed.

(** ** C2: what cleanup evicts and what it counts *)




(** ** C3: a file inside the directory *)





(** ** C4: forced cleanup *)




(** ** C5: cleanup contains every failure *)



(** ** C6: teardown twice *)

(** C6. A forced cleanup, or the manager's teardown, returns without
    raising and leaves a world in which a second forced cleanup returns 0
    and a second teardown returns as well, neither changing anything. *)
Theorem teardown_twice {FS : Type} `{FileSystem FS} (w : @World FS)
    (now1 now2 : datetime) :
  exists n w1,
    cleanup true now1 w = (Ok n, w1)
    /\ manager_exit now1 w = (Ok tt, w1)
    /\ cleanup true now2 w1 = (Ok 0%nat, w1)
    /\ manager_exit now2 w1 = (Ok tt, w1).
Proof.
  destruct (cleanup_spec true now1 w) as (n & w1 & failed & Heq & Hpop & _).
  rewrite to_remove_force, dict_pop_all_keys in Hpop. injection Hpop as Hnil.
  assert (H2 : cleanup true now2 w1 = (Ok 0%nat, w1)).
  { unfold cleanup, bind, get_self, to_remove. by rewrite <- Hnil. }
  exists n, w1. unfold manager_exit, bind. rewrite Heq, H2. done.
Qed.

(** ** C7: entries without expiry *)




(** ** C8: a file handle with no open stream *)

(** C8. A handle that has just been built has no stream, and neither has
    one on which [close] has returned.  On a handle without a stream,
    [write] returns 0 and [read] returns the empty [str] in text mode and
    the empty [bytes] otherwise; neither raises and the handle is as it
    was. *)
Theorem unopened_handle_is_inert {S : Type} `{Stream S} (self : TempFile.t S) :
  (forall suffix prefix dir delete text,
     TempFile._file (TempFile.init (S := S) suffix prefix dir delete text) = None)
  /\ (forall self', TempFile.close self = (Ok tt, self') -> TempFile._file self' = None)
  /\ (TempFile._file self = None ->
      (forall d, TempFile.write d self = (Ok 0%nat, self))
      /\ TempFile.read self
         = (Ok (if TempFile.text self then Str "" else Bytes []), self)).
Proof.
  split; [done|]. split.
  - intros self'. unfold TempFile.close.
    destruct (TempFile._file self) as [f|] eqn:Hf.
    + destruct (stream_close f) as [[[]|e] f']; [|done]. by intros [= <-].
    + by intros [= <-].
  - intros Hf. unfold TempFile.write, TempFile.read. by rewrite Hf.
Qed.

Lemma unopened_handle_is_inert_witness :
  TempFile.write (Str "late")
    (snd (TempFile.close
       (snd (TempFile.create 3 ["/"; "tmp"; "road_x"] {| content := ""; position := 0 |}
               (TempFile.init "" "road_" None true false)))))
  = (Ok 0%nat,
     snd (TempFile.close
       (snd (TempFile.create 3 ["/"; "tmp"; "road_x"] {| content := ""; position := 0 |}
               (TempFile.init "" "road_" None true false)))))
  /\ TempFile.read
       (snd (TempFile.close
          (snd (TempFile.create 3 ["/"; "tmp"; "road_x"] {| content := ""; position := 0 |}
                  (TempFile.init "" "road_" None true false)))))
     = (Ok (Bytes []),
        snd (TempFile.close
          (snd (TempFile.create 3 ["/"; "tmp"; "road_x"] {| content := ""; position := 0 |}
                  (TempFile.init "" "road_" None true false))))).
Proof.
  destruct (unopened_handle_is_inert
    (snd (TempFile.close
       (snd (TempFile.create 3 ["/"; "tmp"; "road_x"] {| content := ""; position := 0 |}
               (TempFile.init "" "road_" None true false))))))
    as (_ & _ & Hinert).
  destruct Hinert as [Hw Hr]; [reflexivity|].
  split; [apply Hw|exact Hr].
Defined.

(** ** C9: subdir twice *)

(** Where [file] has written a regular file, [subdir] of the same name
    raises. *)
Lemma subdir_on_a_file_raises :
  node_at (snd (TempDir.file Scenario.handle "x" (Some "hi") (w_fs Scenario.fresh)))
    ["/"; "b"; "x"] = Some (File "hi")
  /\ TempDir.subdir Scenario.handle "x"
       (snd (TempDir.file Scenario.handle "x" (Some "hi") (w_fs Scenario.fresh)))
     = (Raise FileExistsError,
        snd (TempDir.file Scenario.handle "x" (Some "hi") (w_fs Scenario.fresh))).
Proof. vm_compute. done. Qed.

(** C9, as the code has it. Whenever [subdir(name)] returns, the path is a
    directory and an identical call right after it returns the same path
    and changes nothing. It raises when a regular file is at the path.
    On a created handle it does return when the path is absolute and free
    of [..] and no regular file lies at it or above it: this on a
    filesystem without links that refuses to create only under a missing
    or non-directory parent or over an existing object. *)
Theorem subdir_twice (self : TempDir.t) (name : string) (fs : posix) :
  (forall p fs1,
     TempDir.subdir self name fs = (Ok p, fs1) ->
     TempDir.subdir self name fs1 = (Ok p, fs1) /\ node_at fs1 p = Some Dir)
  /\ (forall d,
        TempDir._path self = Some d ->
        resolved (joinpath d name) = true ->
        (forall q, q `prefix_of` joinpath d name -> no_file fs q) ->
        exists fs1, TempDir.subdir self name fs = (Ok (joinpath d name), fs1))
  /\ (forall d c,
        TempDir._path self = Some d ->
        node_at fs (joinpath d name) = Some (File c) ->
        exists e fs', TempDir.subdir self name fs = (Raise e, fs')).
Proof.
  unfold TempDir.subdir, TempDir.child, bind, ret, raise. split.
  - intros p fs1. destruct (TempDir._path self) as [d|]; [|done]. simpl.
    unfold posix_mkdir.
    destruct (mkdir_fuel _ true true (joinpath d name) fs) as [[[]|e] fs'] eqn:Hmk; [|done].
    intros [= <- <-]. pose proof (mkdir_settles _ _ _ _ _ _ Hmk) as Hs.
    rewrite (mkdir_settled _ true _ _ Hs). split; [done|apply Hs].
  - split.
    + intros d -> _ Hnf. simpl. unfold posix_mkdir.
      destruct (mkdir_parents_ok _ (joinpath d name) fs (le_n _) Hnf) as (fs1 & -> & _).
      by exists fs1.
    + intros d c -> Hf. simpl. unfold posix_mkdir.
      destruct (mkdir_on_file_raises (length (joinpath d name)) true true _ _ _ Hf)
        as (e & fs' & ->).
      by exists e, fs'.
Qed.

Lemma subdir_twice_witness :
  exists fs1,
    TempDir.subdir Scenario.handle "a/b" (w_fs Scenario.fresh) = (Ok ["/"; "b"; "a"; "b"], fs1)
    /\ TempDir.subdir Scenario.handle "a/b" fs1 = (Ok ["/"; "b"; "a"; "b"], fs1)
    /\ node_at fs1 ["/"; "b"; "a"; "b"] = Some Dir.
Proof.
  destruct (subdir_twice Scenario.handle "a/b" (w_fs Scenario.fresh)) as (Hrep & Hret & _).
  destruct (Hret Scenario.base) as [fs1 H1].
  - reflexivity.
  - reflexivity.
  - intros q [k Hk] c. vm_compute in Hk.
    destruct q as [|q0 [|q1 [|q2 [|q3 [|q4 q]]]]]; try discriminate Hk;
      simplify_eq; vm_compute; discriminate.
  - exists fs1. split; [exact H1|]. apply Hrep. exact H1.
Defined.

(** ** C10: the registry's keys *)

Section RegistryInvariant.
Context {FS : Type} `{FileSystem FS}.
Implicit Types (w : @World FS) (self : TempManager).

(** [register] adds one entry under the string form of its path; when the
    creation before it raised, the registry is as it was. *)
Lemma create_file_registry suffix prefix ttl u now1 now2 w :
  let p := joinpath (base_dir (w_self w)) (prefix +:+ uuid_hex u +:+ suffix) in
  let w' := snd (create_file suffix prefix ttl u now1 now2 w) in
  w_self w' = w_self w
  \/ w_self w' =
       set_files (w_self w)
         (dict_set (path_str p)
            {| path := p; created := now2; expires := expires_of now1 ttl;
               auto_delete := true |} (_files (w_self w))).
Proof.
  unfold create_file, eval_expires, register, bind, get_self, on_fs, put_files, ret, raise.
  simpl. destruct (touch _ (w_fs w)) as [[[]|e] fs']; simpl; [|by left].
  destruct (expires_raises now1 ttl); simpl; [by left|by right].
Qed.

Lemma create_dir_registry prefix ttl u now1 now2 w :
  let p := joinpath (base_dir (w_self w)) (prefix +:+ uuid_hex u) in
  let w' := snd (create_dir prefix ttl u now1 now2 w) in
  w_self w' = w_self w
  \/ w_self w' =
       set_files (w_self w)
         (dict_set (path_str p)
            {| path := p; created := now2; expires := expires_of now1 ttl;
               auto_delete := true |} (_files (w_self w))).
Proof.
  unfold create_dir, eval_expires, register, bind, get_self, on_fs, put_files, ret, raise.
  simpl. destruct (mkdir true false _ (w_fs w)) as [[[]|e] fs']; simpl; [|by left].
  destruct (expires_raises now1 ttl); simpl; [by left|by right].
Qed.

Lemma keyed_by_path_set self p now exp :
  keyed_by_path self ->
  keyed_by_path
    (set_files self
       (dict_set (path_str p)
          {| path := p; created := now; expires := exp; auto_delete := true |}
          (_files self))).
Proof.
  intros [Hnd Hkey]. split; simpl.
  - by apply dict_set_NoDup.
  - intros k info Hin. apply dict_set_elem in Hin as [[= -> ->]|Hin]; [done|].
    by apply Hkey.
Qed.

Lemma all_under_base_set self p now exp :
  is_under (base_dir self) p ->
  all_under_base self ->
  all_under_base
    (set_files self
       (dict_set (path_str p)
          {| path := p; created := now; expires := exp; auto_delete := true |}
          (_files self))).
Proof.
  intros Hp Hall k info Hin. simpl in *.
  apply dict_set_elem in Hin as [[= -> ->]|Hin]; [done|]. by apply (Hall k).
Qed.

Lemma cleanup_registry force now w :
  NoDup (keys (_files (w_self w))) ->
  let w' := snd (cleanup force now w) in
  base_dir (w_self w') = base_dir (w_self w)
  /\ _files (w_self w') = kept (w_self w) force now.
Proof.
  intros Hnd.
  destruct (cleanup_spec force now w) as (n & w' & failed & Heq & Hpop & Hc & _).
  rewrite (kept_spec _ _ _ Hnd) in Hpop. injection Hpop as Hk.
  simpl. rewrite Heq. simpl. split; [apply Hc|done].
Qed.
End RegistryInvariant.

(** A prefix that begins with a slash: the directory is made, and tracked,
    outside the base directory. *)
Lemma create_dir_absolute_prefix_leaves_base :
  keyed_by_path (w_self Scenario.fresh)
  /\ all_under_base (w_self Scenario.fresh)
  /\ fst (create_dir "/tmp/" None 5%N 100 100 Scenario.fresh)
     = Ok ["/"; "tmp"; "00000000000000000000000000000005"]
  /\ ~ all_under_base (w_self (snd (create_dir "/tmp/" None 5%N 100 100 Scenario.fresh))).
Proof.
  split; [|split; [|split]].
  - split; [constructor|]. intros k info Hin. by apply elem_of_nil in Hin.
  - intros k info Hin. by apply elem_of_nil in Hin.
  - vm_compute. reflexivity.
  - intros Hall.
    specialize (Hall "/tmp/00000000000000000000000000000005"
      {| path := ["/"; "tmp"; "00000000000000000000000000000005"]; created := 100;
         expires := None; auto_delete := true |}).
    destruct Hall as [k Hk]; [vm_compute; left|]. discriminate Hk.
Qed.

(** C10, as the code has it. Each operation of the manager keeps the
    registry's keys distinct and each key equal to the string form of its
    entry's path. [cleanup] and [list] also keep every tracked path under
    the base directory; [create_file] and [create_dir] do so when the
    prefix does not begin with a slash (the path is then the base
    directory's parts followed by those of the name, taken as written). *)
Theorem registry_invariant_preserved {FS : Type} `{FileSystem FS} (w : @World FS) :
  keyed_by_path (w_self w) ->
  (forall suffix prefix ttl u now1 now2,
     let w' := snd (create_file suffix prefix ttl u now1 now2 w) in
     keyed_by_path (w_self w')
     /\ (relative_name prefix = true ->
         all_under_base (w_self w) -> all_under_base (w_self w')))
  /\ (forall prefix ttl u now1 now2,
        let w' := snd (create_dir prefix ttl u now1 now2 w) in
        keyed_by_path (w_self w')
        /\ (relative_name prefix = true ->
            all_under_base (w_self w) -> all_under_base (w_self w')))
  /\ (forall force now,
        let w' := snd (cleanup force now w) in
        keyed_by_path (w_self w')
        /\ (all_under_base (w_self w) -> all_under_base (w_self w')))
  /\ snd (list_entries w) = w.
Proof.
  intros Hinv. split; [|split; [|split]].
  - intros suffix prefix ttl u now1 now2 w'.
    destruct (create_file_registry suffix prefix ttl u now1 now2 w) as [Hs|Hs];
      fold w' in Hs; rewrite Hs.
    + done.
    + split; [by apply keyed_by_path_set|].
      intros Hrel. apply all_under_base_set, joinpath_under.
      by apply relative_name_prefixed.
  - intros prefix ttl u now1 now2 w'.
    destruct (create_dir_registry prefix ttl u now1 now2 w) as [Hs|Hs];
      fold w' in Hs; rewrite Hs.
    + done.
    + split; [by apply keyed_by_path_set|].
      intros Hrel. apply all_under_base_set, joinpath_under.
      pose proof (relative_name_prefixed prefix "" u Hrel) as Hr.
      by rewrite append_empty in Hr.
  - intros force now w'. destruct Hinv as [Hnd Hkey].
    destruct (cleanup_registry force now w Hnd) as [Hb Hf]. fold w' in Hb, Hf.
    split; [split|].
    + rewrite Hf. by apply keys_filter_NoDup.
    + intros k info Hin. rewrite Hf in Hin.
      apply elem_of_kept in Hin as [Hin _]. by apply Hkey.
    + intros Hall k info Hin. rewrite Hf in Hin. rewrite Hb.
      apply elem_of_kept in Hin as [Hin _]. by apply (Hall k).
  - reflexivity.
Qed.

Lemma registry_invariant_preserved_witness :
  keyed_by_path
    (w_self (snd (create_file ".log" "" (Some 30) 7%N 0 0 Scenario.fresh)))
  /\ all_under_base
       (w_self (snd (create_file ".log" "" (Some 30) 7%N 0 0 Scenario.fresh))).
Proof.
  assert (Hk : keyed_by_path (w_self Scenario.fresh)).
  { split; [constructor|]. intros k info Hin. inversion Hin. }
  destruct (proj1 (registry_invariant_preserved Scenario.fresh Hk)
              ".log" "" (Some 30) 7%N 0 0) as [H1 H2].
  split; [exact H1|]. apply H2; [reflexivity|].
  intros k info Hin. inversion Hin.
Defined.

(** ** Further properties of the manager *)

(** Paths as pathlib reads and writes them. *)
Example parse_path_normalises :
  parse_path "/tmp//roadtemp/./x/" = ["/"; "tmp"; "roadtemp"; "x"]
  /\ parse_path "a/../b" = ["a"; ".."; "b"]
  /\ parse_path "//a" = ["//"; "a"]
  /\ parse_path "///a" = ["/"; "a"]
  /\ parse_path "." = [].
Proof. repeat split. Qed.

Example joinpath_absolute_replaces :
  path_str (joinpath ["/"; "tmp"; "roadtemp"] "abc.log") = "/tmp/roadtemp/abc.log"
  /\ path_str (joinpath ["/"; "tmp"; "roadtemp"] "/etc/x") = "/etc/x".
Proof. split; reflexivity. Qed.

(** The three rules of the first loop of [cleanup], in one expression. *)
Lemma should_remove_rules (self : TempManager) (force : bool) (now : datetime)
    (info : TempFileInfo) :
  should_remove self force now info
  = force
    || match expires info with Some e => now >? e | None => false end
    || (auto_cleanup self && (now - created info >? timedelta_seconds (max_age self))).
Proof.
  unfold should_remove.
  destruct force, (expires info) as [e|], (auto_cleanup self); simpl;
    repeat match goal with |- context [?a >? ?b] => destruct (a >? b); simpl end;
    reflexivity.
Qed.

Lemma dict_get_absent {V} (k : string) (d : dict V) : k ∉ keys d -> dict_get k d = None.
Proof.
  induction d as [|[k0 v0] tl IH]; simpl; [done|]. intros Hni.
  apply not_elem_of_cons in Hni as [Hne Hni].
  destruct (String.eqb_spec k k0); [done|by apply IH].
Qed.

(** An entry whose [expires] has passed, or, with [auto_cleanup] on, whose
    age exceeds [max_age] seconds, is no longer tracked after
    [cleanup(force=False)], which returns without raising. *)
Theorem entry_past_ttl_or_age_is_evicted {FS : Type} `{FileSystem FS} (w : @World FS)
    (now : datetime) (k : string) (info : TempFileInfo) :
  NoDup (keys (_files (w_self w))) ->
  (k, info) ∈ _files (w_self w) ->
  (exists e, expires info = Some e /\ e < now)
  \/ (auto_cleanup (w_self w) = true
      /\ timedelta_seconds (max_age (w_self w)) < now - created info) ->
  exists n w',
    cleanup false now w = (Ok n, w')
    /\ dict_get k (_files (w_self w')) = None
    /\ k ∈ to_remove (w_self w) false now.
Proof.
  intros Hnd Hin Hdue.
  assert (Hsel : should_remove (w_self w) false now info = true).
  { rewrite should_remove_rules. simpl.
    destruct Hdue as [(e & -> & He)|[-> Hage]].
    - apply orb_true_iff. left. by apply Z.gtb_lt.
    - apply orb_true_iff. right. by apply Z.gtb_lt. }
  destruct (cleanup_spec false now w) as (n & w' & failed & Heq & Hpop & _).
  rewrite (kept_spec _ _ _ Hnd) in Hpop. injection Hpop as Hk.
  exists n, w'. split; [done|]. split.
  - rewrite <- Hk. apply dict_get_absent. intros Hkey.
    apply keys_filter_elem in Hkey as (v & Hv & Hel).
    rewrite (same_key_same_entry _ _ _ _ Hnd Hv Hin) in Hel.
    unfold eligible in Hel. simpl in Hel. by rewrite Hsel in Hel.
  - rewrite to_remove_keys. unfold keys. apply list_elem_of_fmap.
    exists (k, info). split; [done|].
    apply list_elem_of_In, filter_In. split; [by apply list_elem_of_In|done].
Qed.

Lemma entry_past_ttl_or_age_is_evicted_witness :
  exists n w',
    cleanup false 2000000 Scenario.mixed = (Ok n, w')
    /\ dict_get (path_str Scenario.path1) (_files (w_self w')) = None
    /\ path_str Scenario.path1 ∈ to_remove (w_self Scenario.mixed) false 2000000.
Proof.
  apply (entry_past_ttl_or_age_is_evicted Scenario.mixed 2000000 (path_str Scenario.path1)
           (Scenario.entry Scenario.path1 0 (Some 1000000))).
  - compute_done.
  - vm_compute. left.
  - left. exists 1000000. split; [reflexivity|lia].
Defined.

(** When [create_file] returns, the path is the base directory joined with
    prefix, uuid and suffix, and the registry holds, under the path's
    string, an entry with that path, the second clock reading as [created]
    and [expires] computed from the first; [list] shows it. *)
Theorem create_file_tracks {FS : Type} `{FileSystem FS} (w w1 : @World FS)
    (suffix prefix : string) (ttl : option Z) (u : N) (now1 now2 : datetime) (p : Path) :
  create_file suffix prefix ttl u now1 now2 w = (Ok p, w1) ->
  p = joinpath (base_dir (w_self w)) (prefix +:+ uuid_hex u +:+ suffix)
  /\ dict_get (path_str p) (_files (w_self w1))
     = Some {| path := p; created := now2; expires := expires_of now1 ttl;
               auto_delete := true |}
  /\ In {| path := p; created := now2; expires := expires_of now1 ttl;
           auto_delete := true |}
        (values (_files (w_self w1))).
Proof.
  unfold create_file, eval_expires, register, bind, get_self, on_fs, put_files, ret, raise.
  simpl. destruct (touch _ (w_fs w)) as [[[]|e] fs']; simpl; [|done].
  destruct (expires_raises now1 ttl); simpl; [done|].
  intros [= <- <-]. simpl. split; [done|]. split; [apply dict_get_set|].
  unfold values. apply in_map_iff. eexists (_, _). split; [reflexivity|].
  apply list_elem_of_In, dict_get_elem, dict_get_set.
Qed.

Lemma create_file_tracks_witness :
  dict_get "/b/00000000000000000000000000000007.log"
    (_files (w_self (snd (create_file ".log" "" (Some 30) 7%N 0 5 Scenario.fresh))))
  = Some {| path := ["/"; "b"; "00000000000000000000000000000007.log"]; created := 5;
            expires := Some 30000000; auto_delete := true |}.
Proof.
  apply (create_file_tracks Scenario.fresh
           (snd (create_file ".log" "" (Some 30) 7%N 0 5 Scenario.fresh))
           ".log" "" (Some 30) 7%N 0 5
           ["/"; "b"; "00000000000000000000000000000007.log"]).
  vm_compute. reflexivity.
Defined.

(** A manager with [max_age] 60: a file with a ttl of 30 seconds and a
    directory without one are both tracked; a forced cleanup removes both,
    returns 2, and leaves nothing to list. *)
Example two_entries_then_force :
  let w0 := {| w_self := {| base_dir := Scenario.base; auto_cleanup := true;
                            max_age := 60; _files := [] |};
               w_fs := w_fs Scenario.fresh; w_log := [] |} in
  let w1 := snd (create_file ".log" "" (Some 30) 1%N 0 0 w0) in
  let w2 := snd (create_dir "cache_" None 2%N 1 1 w1) in
  let w3 := snd (cleanup true 2 w2) in
  map expires (values (_files (w_self w2))) = [Some 30000000; None]
  /\ fst (cleanup true 2 w2) = Ok 2%nat
  /\ fst (list_entries w3) = Ok []
  /\ removed_by (w_fs w2) (w_fs w3) (_files (w_self w2)) = 2%nat.
Proof. vm_compute. repeat split. Qed.

(** ** Creation and the registry *)

Section CreationFacts.
Context {FS : Type} `{FileSystem FS}.
Implicit Types (w : @World FS) (self : TempManager).

Lemma dict_get_set_other {V} (k k' : string) (v : V) (d : dict V) :
  k' <> k -> dict_get k' (dict_set k v d) = dict_get k' d.
Proof.
  intros Hne. induction d as [|[k0 v0] tl IH]; simpl.
  - destruct (String.eqb_spec k' k); done.
  - destruct (String.eqb_spec k k0) as [->|Hk]; simpl.
    + destruct (String.eqb_spec k' k0); done.
    + destruct (String.eqb_spec k' k0); done.
Qed.

Lemma filter_rejected {A} (P Q : A -> bool) (l : list A) :
  (forall x, P x = false -> Q x = false) ->
  List.filter Q (List.filter (fun x => negb (P x)) l) = [].
Proof.
  intros HPQ. induction l as [|x tl IH]; simpl; [done|].
  destruct (P x) eqn:E; simpl; [done|]. by rewrite (HPQ x E).
Qed.

Lemma should_remove_config (a b : TempManager) force now info :
  same_config a b -> should_remove a force now info = should_remove b force now info.
Proof. intros (_ & Ha & Hm). unfold should_remove. by rewrite Ha, Hm. Qed.
End CreationFacts.

(** A creation that raises has registered nothing: the manager and the log
    are as they were. *)
Theorem create_failure_registers_nothing {FS : Type} `{FileSystem FS} (w w' : @World FS)
    (suffix prefix : string) (ttl : option Z) (u : N) (now1 now2 : datetime) (e : exn) :
  create_file suffix prefix ttl u now1 now2 w = (Raise e, w')
  \/ create_dir prefix ttl u now1 now2 w = (Raise e, w') ->
  w_self w' = w_self w /\ w_log w' = w_log w.
Proof.
  unfold create_file, create_dir, eval_expires, register, bind, get_self, on_fs,
    put_files, ret, raise. simpl.
  intros [Hr|Hr]; revert Hr.
  - destruct (touch _ (w_fs w)) as [[[]|e'] fs']; simpl; [|by intros [= _ <-]].
    destruct (expires_raises now1 ttl); simpl; [by intros [= _ <-]|done].
  - destruct (mkdir true false _ (w_fs w)) as [[[]|e'] fs']; simpl; [|by intros [= _ <-]].
    destruct (expires_raises now1 ttl); simpl; [by intros [= _ <-]|done].
Qed.

Lemma create_failure_registers_nothing_witness :
  w_self (snd (create_dir "" None 1%N 9 9 Scenario.tracked)) = w_self Scenario.tracked
  /\ w_log (snd (create_dir "" None 1%N 9 9 Scenario.tracked)) = w_log Scenario.tracked.
Proof.
  apply (create_failure_registers_nothing Scenario.tracked _ "" "" None 1%N 9 9
           FileExistsError).
  right. vm_compute. reflexivity.
Defined.

(** Whether it returns or raises, [create_file] leaves every entry under
    another key as it was, and the keys already there in their order; a
    new key goes to the end. *)
Theorem create_file_keeps_other_entries {FS : Type} `{FileSystem FS} (w : @World FS)
    (suffix prefix : string) (ttl : option Z) (u : N) (now1 now2 : datetime) (k : string) :
  k <> path_str (joinpath (base_dir (w_self w)) (prefix +:+ uuid_hex u +:+ suffix)) ->
  let w' := snd (create_file suffix prefix ttl u now1 now2 w) in
  dict_get k (_files (w_self w')) = dict_get k (_files (w_self w))
  /\ keys (_files (w_self w)) `prefix_of` keys (_files (w_self w'))
  /\ (length (keys (_files (w_self w'))) <= S (length (keys (_files (w_self w)))))%nat.
Proof.
  intros Hne w'.
  destruct (create_file_registry suffix prefix ttl u now1 now2 w) as [Hs|Hs];
    fold w' in Hs; rewrite Hs; simpl.
  - split; [done|]. split; [done|lia].
  - split; [by apply dict_get_set_other|]. rewrite keys_dict_set.
    case_bool_decide; [split; [done|lia]|]. split; [by apply prefix_app_r|].
    rewrite length_app. simpl. lia.
Qed.

Lemma create_file_keeps_other_entries_witness :
  dict_get (path_str Scenario.path1)
    (_files (w_self (snd (create_file "" "" None 2%N 5 5 Scenario.tracked))))
  = dict_get (path_str Scenario.path1) (_files (w_self Scenario.tracked)).
Proof.
  apply (create_file_keeps_other_entries Scenario.tracked "" "" None 2%N 5 5
           (path_str Scenario.path1)).
  vm_compute. discriminate.
Defined.

(** ** Eligibility over time *)

(** An entry that [cleanup] would select at one time it would select at
    any later time: passing its [expires] or [max_age] is not undone. *)
Theorem should_remove_monotone (self : TempManager) (force : bool) (now now' : datetime)
    (info : TempFileInfo) :
  now <= now' ->
  should_remove self force now info = true ->
  should_remove self force now' info = true.
Proof.
  intros Hle. rewrite !should_remove_rules.
  destruct force; simpl; [done|].
  intros [He|Ha]%orb_true_iff; apply orb_true_iff.
  - left. destruct (expires info) as [e|]; [|done].
    apply Z.gtb_lt in He. apply Z.gtb_lt. lia.
  - right. apply andb_true_iff in Ha as [-> Ha]. simpl.
    apply Z.gtb_lt in Ha. apply Z.gtb_lt. lia.
Qed.

Lemma should_remove_monotone_witness :
  should_remove (w_self Scenario.tracked) false 3000000
    (Scenario.entry Scenario.path1 0 (Some 1000000)) = true.
Proof.
  apply (should_remove_monotone (w_self Scenario.tracked) false 2000000 3000000).
  - lia.
  - reflexivity.
Defined.

(** A second [cleanup] with the same [force] at the same time selects
    nothing: it returns 0 and changes nothing. *)
Theorem cleanup_again_is_idle {FS : Type} `{FileSystem FS} (w : @World FS)
    (force : bool) (now : datetime) :
  NoDup (keys (_files (w_self w))) ->
  exists n w1,
    cleanup force now w = (Ok n, w1)
    /\ cleanup force now w1 = (Ok 0%nat, w1).
Proof.
  intros Hnd.
  destruct (cleanup_spec force now w) as (n & w1 & failed & Heq & Hpop & Hc & _).
  rewrite (kept_spec _ _ _ Hnd) in Hpop. injection Hpop as Hk.
  exists n, w1. split; [done|].
  assert (Hnone : to_remove (w_self w1) force now = []).
  { rewrite to_remove_keys, <- Hk. unfold kept. rewrite filter_rejected; [done|].
    intros [k v] E. unfold eligible in E |- *. simpl in E |- *.
    by rewrite (should_remove_config _ _ force now v Hc). }
  unfold cleanup, bind, get_self. by rewrite Hnone.
Qed.

Lemma cleanup_again_is_idle_witness :
  exists n w1,
    cleanup false 2000000 Scenario.mixed = (Ok n, w1)
    /\ cleanup false 2000000 w1 = (Ok 0%nat, w1).
Proof.
  apply (cleanup_again_is_idle Scenario.mixed false 2000000). compute_done.
Defined.

(** ** What cleanup does to the filesystem *)

Lemma dwindles_refl (fs : posix) : dwindles fs fs.
Proof. split; [done|]. intros q. by left. Qed.

Lemma dwindles_trans (a b c : posix) : dwindles a b -> dwindles b c -> dwindles a c.
Proof.
  intros [Hf1 H1] [Hf2 H2]. split; [congruence|].
  intros q. destruct (H2 q) as [-> | ->]; [apply H1|by right].
Qed.

Lemma remove_path_dwindles (info : TempFileInfo) (fs : posix) :
  dwindles fs (snd (remove_path info fs)).
Proof.
  unfold remove_path, bind. simpl.
  unfold posix_is_file, posix_is_dir, posix_unlink, posix_rmtree.
  destruct (node_at fs (path info)) as [[c|]|] eqn:E; simpl; rewrite ?E; simpl;
    [| |apply dwindles_refl].
  - destruct (faults fs !! path info); simpl; [apply dwindles_refl|].
    split; [done|]. intros q.
    destruct (decide (path info = q)) as [<-|Hne]; [|left; by apply node_at_delete].
    unfold node_at in *. simpl. destruct (is_anchor (path info)); [by left|].
    right. apply lookup_delete_eq.
  - destruct (tree_fault fs (path info)); simpl; [apply dwindles_refl|].
    split; [done|]. intros q. unfold node_at. simpl.
    destruct (is_anchor q); [by left|].
    destruct (filter _ (nodes fs) !! q) as [x|] eqn:Hq; [left|by right].
    by apply map_lookup_filter_Some_1_1 in Hq.
Qed.

Lemma tree_fault_none (fs : posix) (p : Path) : faults fs = ∅ -> tree_fault fs p = None.
Proof.
  intros Hf. unfold tree_fault. rewrite Hf, map_filter_empty, map_to_list_empty. done.
Qed.

(** With nothing refused, the removal of an entry raises nothing and leaves
    nothing at its path. *)
Lemma remove_path_clean (info : TempFileInfo) (fs : posix) :
  faults fs = ∅ ->
  exists fs',
    remove_path info fs = (Ok tt, fs')
    /\ (is_anchor (path info) = false -> node_at fs' (path info) = None).
Proof.
  intros Hf. unfold remove_path, bind. simpl.
  unfold posix_is_file, posix_is_dir, posix_unlink, posix_rmtree.
  destruct (node_at fs (path info)) as [[c|]|] eqn:E; simpl; rewrite ?E; simpl.
  - rewrite Hf, lookup_empty. eexists. split; [done|].
    intros Ha. unfold node_at. simpl. rewrite Ha. apply lookup_delete_eq.
  - rewrite (tree_fault_none _ _ Hf). eexists. split; [done|].
    intros Ha. unfold node_at. simpl. rewrite Ha.
    apply map_lookup_filter_None_2. right. intros x _ Hn. by apply Hn.
  - by exists fs.
Qed.

Lemma dict_pop_other {V} (k k' : string) (v v' : V) (d d' : dict V) :
  dict_pop k d = Some (v, d') -> (k', v') ∈ d -> k' <> k -> (k', v') ∈ d'.
Proof.
  revert v d'. induction d as [|[k0 v0] tl IH]; intros v d' Hp Hin Hne; simpl in Hp; [done|].
  destruct (String.eqb_spec k k0) as [->|Hk].
  - injection Hp as <- <-. apply elem_of_cons in Hin as [[= -> ->]|Hin]; done.
  - destruct (dict_pop k tl) as [[x tl']|] eqn:E; [|done]. injection Hp as <- <-.
    apply elem_of_cons in Hin as [->|Hin]; [left|right]. by apply (IH x).
Qed.

Lemma dict_pop_NoDup {V} (k : string) (v : V) (d d' : dict V) :
  dict_pop k d = Some (v, d') -> NoDup (keys d) -> NoDup (keys d').
Proof.
  intros (_ & _ & Hperm)%dict_pop_Some Hnd. rewrite Hperm in Hnd.
  by apply NoDup_cons in Hnd as [_ Hnd].
Qed.

Lemma remove_all_dwindles (ks : list string) (count : nat) (w : @World posix) :
  dwindles (w_fs w) (w_fs (snd (remove_all ks count w))).
Proof.
  apply (remove_all_fs dwindles); [apply dwindles_refl|apply dwindles_trans|].
  intros key info fs _ _. apply remove_path_dwindles.
Qed.

Lemma remove_all_clean (ks : list string) : forall count (w : @World posix) d',
  NoDup (keys (_files (w_self w))) ->
  dict_pop_all ks (_files (w_self w)) = Some d' ->
  faults (w_fs w) = ∅ ->
  exists w',
    remove_all ks count w = (Ok (count + length ks)%nat, w')
    /\ w_log w' = w_log w
    /\ forall key info,
         key ∈ ks -> (key, info) ∈ _files (w_self w) ->
         is_anchor (path info) = false -> node_at (w_fs w') (path info) = None.
Proof.
  induction ks as [|key rest IH]; intros count w d' Hnd Hpop Hf; simpl in Hpop.
  - exists w. simpl. unfold ret. split; [f_equal; f_equal; lia|]. split; [done|].
    intros key info Hin. by apply elem_of_nil in Hin.
  - destruct (dict_pop key (_files (w_self w))) as [[info0 d1]|] eqn:Hp; [|done].
    pose proof (dict_pop_Some _ _ _ _ Hp) as (Hin0 & _ & _).
    destruct (remove_path_clean info0 (w_fs w) Hf) as (fs1 & Hrm & Hgone).
    pose proof (remove_path_dwindles info0 (w_fs w)) as [Hf1 _]. rewrite Hrm in Hf1.
    simpl in Hf1.
    set (w1 := {| w_self := set_files (w_self w) d1; w_fs := fs1; w_log := w_log w |}).
    destruct (IH (S count) w1 d') as (w' & Heq & Hlog & Hrest); simpl.
    { by apply (dict_pop_NoDup _ _ _ _ Hp). }
    { done. }
    { congruence. }
    exists w'. simpl. unfold bind at 1.
    rewrite (remove_one_eq key count w info0 d1 Hp), Hrm. fold w1. rewrite Heq.
    split; [f_equal; f_equal; lia|]. split; [done|].
    intros k info Hk Hin Ha.
    destruct (decide (k = key)) as [->|Hne].
    + rewrite (same_key_same_entry _ _ _ _ Hnd Hin Hin0) in *.
      pose proof (remove_all_dwindles rest (S count) w1) as [_ Hdw].
      rewrite Heq in Hdw. simpl in Hdw.
      destruct (Hdw (path info0)) as [-> | ->]; [by apply Hgone|done].
    + apply elem_of_cons in Hk as [?|Hk]; [done|].
      apply (Hrest k); [done| |done]. simpl. by apply (dict_pop_other _ _ _ _ _ _ Hp).
Qed.

(** [cleanup] never makes or changes an object: after it each path holds
    what it held before or nothing.  A path holds exactly what it held
    when no selected entry sits at it or above it; this is read off the
    components, so the path and the selected ones are to be absolute and
    free of [..], on a filesystem without links. *)
Theorem cleanup_only_removes (w : @World posix) (force : bool) (now : datetime) :
  dwindles (w_fs w) (w_fs (snd (cleanup force now w)))
  /\ forall q,
       resolved q = true ->
       (forall k info, k ∈ to_remove (w_self w) force now ->
          (k, info) ∈ _files (w_self w) ->
          resolved (path info) = true /\ ~ path info `prefix_of` q) ->
       node_at (w_fs (snd (cleanup force now w))) q = node_at (w_fs w) q.
Proof.
  unfold cleanup, bind, get_self. split; [apply remove_all_dwindles|].
  intros q _ Hfree.
  apply (remove_all_fs (fun a b => node_at b q = node_at a q)).
  - done.
  - intros a b c Hab Hbc. by rewrite Hbc.
  - intros key info fs Hkey Hki. apply remove_path_frame. by apply (Hfree key).
Qed.

Lemma cleanup_only_removes_witness :
  node_at (w_fs (snd (cleanup false 2000000 Scenario.mixed))) Scenario.path2
  = node_at (w_fs Scenario.mixed) Scenario.path2.
Proof.
  apply (proj2 (cleanup_only_removes Scenario.mixed false 2000000) Scenario.path2 eq_refl).
  intros k info Hk Hin. vm_compute in Hk.
  apply list_elem_of_singleton in Hk. subst k. vm_compute in Hin.
  apply elem_of_cons in Hin as [Hin|Hin].
  - injection Hin as ->. split; [reflexivity|].
    intros [x Hx]. discriminate Hx.
  - apply list_elem_of_singleton in Hin. discriminate Hin.
Defined.

(** Where the system refuses no removal, [cleanup] counts every entry it
    selected, logs nothing, keeps exactly the others, and leaves nothing at
    the path of any selected entry. *)
Theorem cleanup_removes_what_it_selects (w : @World posix) (force : bool) (now : datetime) :
  NoDup (keys (_files (w_self w))) ->
  faults (w_fs w) = ∅ ->
  exists w',
    cleanup force now w = (Ok (length (to_remove (w_self w) force now)), w')
    /\ _files (w_self w') = kept (w_self w) force now
    /\ w_log w' = w_log w
    /\ forall k info,
         (k, info) ∈ _files (w_self w) ->
         should_remove (w_self w) force now info = true ->
         is_anchor (path info) = false ->
         node_at (w_fs w') (path info) = None.
Proof.
  intros Hnd Hf.
  destruct (remove_all_clean _ 0%nat w _ Hnd (kept_spec _ force now Hnd) Hf)
    as (w' & Heq & Hlog & Hgone).
  destruct (cleanup_spec force now w) as (n & w2 & failed & Heq2 & Hpop & _).
  rewrite (kept_spec _ _ _ Hnd) in Hpop. injection Hpop as Hk.
  unfold cleanup, bind, get_self in Heq2 |- *. rewrite Heq in Heq2 |- *.
  injection Heq2 as _ <-.
  exists w'. split; [done|]. split; [done|]. split; [done|].
  intros k info Hin Hsel Ha. apply (Hgone k); [|done|done].
  rewrite to_remove_keys. unfold keys. apply list_elem_of_fmap.
  exists (k, info). split; [done|].
  apply list_elem_of_In, filter_In. split; [by apply list_elem_of_In|done].
Qed.

Lemma cleanup_removes_what_it_selects_witness :
  exists w',
    cleanup true 7 Scenario.nested = (Ok 2%nat, w')
    /\ _files (w_self w') = []
    /\ w_log w' = []
    /\ node_at (w_fs w') Scenario.path1 = None
    /\ node_at (w_fs w') Scenario.path12 = None.
Proof.
  destruct (cleanup_removes_what_it_selects Scenario.nested true 7)
    as (w' & Heq & Hk & Hlog & Hgone).
  - compute_done.
  - reflexivity.
  - exists w'. split; [exact Heq|]. split; [exact Hk|]. split; [exact Hlog|]. split.
    + apply (Hgone (path_str Scenario.path1) (Scenario.entry Scenario.path1 0 (Some 1000000)));
        [vm_compute; left|reflexivity|reflexivity].
    + apply (Hgone (path_str Scenario.path12) (Scenario.entry Scenario.path12 5 None));
        [vm_compute; right; left|reflexivity|reflexivity].
Defined.

(** ** Creating in the filesystem model *)

Lemma split_slash_plain (s : string) : no_slash s = true -> split_slash s = [s].
Proof.
  induction s as [|c r IH]; simpl; [done|].
  intros [Hc Hr]%andb_true_iff. apply negb_true_iff in Hc. rewrite Hc.
  by rewrite (IH Hr).
Qed.

Lemma no_slash_relative (s : string) : no_slash s = true -> relative_name s = true.
Proof. destruct s as [|c r]; simpl; [done|]. by intros [Hc _]%andb_true_iff. Qed.

Lemma no_slash_append (a b : string) :
  no_slash a = true -> no_slash b = true -> no_slash (a +:+ b) = true.
Proof.
  intros Ha Hb. induction a as [|c r IH]; [done|].
  change (no_slash (String c (r +:+ b)) = true). simpl in Ha |- *.
  apply andb_true_iff in Ha as [Hc Hr]. rewrite Hc. by apply IH.
Qed.

Lemma no_slash_hex (n : nat) (u : N) : no_slash (hex_digits n u) = true.
Proof.
  induction n as [|n IH]; [done|].
  change (negb (Ascii.eqb (hex_digit ((u / 16 ^ N.of_nat n) mod 16)%N) slash)
          && no_slash (hex_digits n u) = true).
  by rewrite hex_digit_not_slash, IH.
Qed.

(** A name made of prefix, uuid and suffix has at least two characters: it
    is not dropped when the path is parsed. *)
Lemma named_component (prefix suffix : string) (u : N) :
  keep_component (prefix +:+ uuid_hex u +:+ suffix) = true.
Proof.
  assert (Htwo : forall c1 c2 r, keep_component (String c1 (String c2 r)) = true).
  { intros c1 c2 r. unfold keep_component. simpl.
    destruct (Ascii.eqb c1 "."%char); done. }
  assert (Hhex : exists a b r, uuid_hex u = String a (String b r)).
  { by eexists _, _, _. }
  destruct Hhex as (a & b & r & ->).
  destruct prefix as [|x [|y p]]; apply Htwo.
Qed.

(** The path of a name without slashes: one component below the base. *)
Lemma joinpath_plain (base : Path) (prefix suffix : string) (u : N) :
  no_slash prefix = true -> no_slash suffix = true ->
  joinpath base (prefix +:+ uuid_hex u +:+ suffix)
  = (base ++ [prefix +:+ uuid_hex u +:+ suffix])%list.
Proof.
  intros Hp Hs.
  assert (Hn : no_slash (prefix +:+ uuid_hex u +:+ suffix) = true).
  { apply no_slash_append; [done|]. apply no_slash_append; [apply no_slash_hex|done]. }
  unfold joinpath. rewrite (relative_name_parse _ (no_slash_relative _ Hn)).
  unfold parse_path. rewrite (relative_name_root _ (no_slash_relative _ Hn)).
  rewrite (split_slash_plain _ Hn). simpl. by rewrite named_component.
Qed.

Lemma no_slash_not_root (s : string) : no_slash s = true -> is_root s = false.
Proof.
  destruct s as [|c r]; [done|]. simpl. intros [Hc _]%andb_true_iff.
  apply is_root_first. intros ->. done.
Qed.

Lemma child_parent (base : Path) (name : string) :
  is_root name = false ->
  is_anchor (base ++ [name])%list = false /\ parent (base ++ [name])%list = base.
Proof.
  intros Hr.
  assert (Ha : is_anchor (base ++ [name])%list = false).
  { destruct base as [|b [|b' tl]]; simpl; [done|done|]. by destruct (tl ++ [name])%list. }
  split; [done|]. unfold parent. rewrite Ha. apply removelast_last.
Qed.

(** [mkdir] without [exist_ok] returns only where nothing was. *)
Lemma mkdir_new (n : nat) : forall parents p fs fs',
  mkdir_fuel n parents false p fs = (Ok tt, fs') -> node_at fs p = None.
Proof.
  induction n as [|n IH]; intros parents p fs fs'; simpl;
    destruct (os_mkdir p fs) as [[[]|e] fs0] eqn:Hos;
    try (intros _; by apply os_mkdir_ok in Hos as (_ & Hn & _));
    pose proof (os_mkdir_raise _ _ _ _ Hos) as [-> _].
  - destruct e; try done. by destruct (negb parents || _).
  - destruct e; try done.
    destruct (negb parents || bool_decide (parent p = p)) eqn:Hg; [done|].
    apply orb_false_iff in Hg as [_ Hpar]. apply bool_decide_eq_false in Hpar.
    destruct (mkdir_fuel n true true (parent p) fs) as [[[]|e'] fs1] eqn:Hup; [|done].
    intros Hres. apply IH in Hres.
    destruct (mkdir_frame _ _ _ _ _ _ _ Hup p) as [<-|(Hpre & _)]; [done|].
    assert (Ha : is_anchor p = false).
    { destruct (is_anchor p) eqn:Ha; [|done]. by destruct Hpar; apply anchor_parent. }
    by destruct (not_prefix_of_parent p Ha).
Qed.

(** With the base directory in place and no slash in prefix or suffix,
    [create_file] first makes the file: one new component below the base,
    an object already there being kept as it is, and nothing else on the
    filesystem changing.  When the expiry can be computed it returns
    that path and the entry is tracked; when [now + ttl] is no [datetime]
    it raises [OverflowError], and the file is there with no entry for
    it. *)
Theorem create_file_in_base_succeeds (w : @World posix) (suffix prefix : string)
    (ttl : option Z) (u : N) (now1 now2 : datetime) :
  node_at (w_fs w) (base_dir (w_self w)) = Some Dir ->
  no_slash prefix = true ->
  no_slash suffix = true ->
  (expires_raises now1 ttl = false ->
   exists w',
     create_file suffix prefix ttl u now1 now2 w
       = (Ok (base_dir (w_self w) ++ [prefix +:+ uuid_hex u +:+ suffix])%list, w')
     /\ node_at (w_fs w') (base_dir (w_self w) ++ [prefix +:+ uuid_hex u +:+ suffix])%list
        = Some (default (File "")
                  (node_at (w_fs w)
                     (base_dir (w_self w) ++ [prefix +:+ uuid_hex u +:+ suffix])%list))
     /\ (forall q, q <> (base_dir (w_self w) ++ [prefix +:+ uuid_hex u +:+ suffix])%list ->
           node_at (w_fs w') q = node_at (w_fs w) q)
     /\ dict_get
          (path_str (base_dir (w_self w) ++ [prefix +:+ uuid_hex u +:+ suffix])%list)
          (_files (w_self w'))
        = Some {| path := (base_dir (w_self w) ++ [prefix +:+ uuid_hex u +:+ suffix])%list;
                  created := now2; expires := expires_of now1 ttl; auto_delete := true |})
  /\ (expires_raises now1 ttl = true ->
      exists w',
        create_file suffix prefix ttl u now1 now2 w = (Raise OverflowError, w')
        /\ w_self w' = w_self w
        /\ node_at (w_fs w') (base_dir (w_self w) ++ [prefix +:+ uuid_hex u +:+ suffix])%list
           = Some (default (File "")
                     (node_at (w_fs w)
                        (base_dir (w_self w) ++ [prefix +:+ uuid_hex u +:+ suffix])%list))).
Proof.
  intros Hbase Hp Hs.
  set (name := prefix +:+ uuid_hex u +:+ suffix).
  assert (Hn : no_slash name = true).
  { apply no_slash_append; [done|]. apply no_slash_append; [apply no_slash_hex|done]. }
  destruct (child_parent (base_dir (w_self w)) name (no_slash_not_root _ Hn)) as [Ha Hpar].
  unfold create_file, eval_expires, register, bind, get_self, on_fs, put_files, ret, raise.
  simpl. rewrite (joinpath_plain _ _ _ _ Hp Hs). fold name.
  set (p := (base_dir (w_self w) ++ [name])%list) in *.
  unfold posix_touch, parent_check. rewrite Hpar, Hbase.
  destruct (node_at (w_fs w) p) as [x|] eqn:Hx; simpl.
  - split; intros ->; simpl.
    + eexists. split; [reflexivity|]. simpl. rewrite Hx.
      split; [done|]. split; [done|]. apply dict_get_set.
    + eexists. split; [reflexivity|]. simpl. by rewrite Hx.
  - assert (Hnew : node_at (set_node (w_fs w) p (File "")) p = Some (File "")).
    { rewrite node_at_set_node, Ha. by rewrite bool_decide_eq_true_2. }
    split; intros ->; simpl.
    + eexists. split; [reflexivity|]. simpl. split; [done|]. split.
      * intros q Hq. rewrite node_at_set_node. destruct (is_anchor q) eqn:Hqa.
        { by rewrite node_at_anchor. }
        by rewrite bool_decide_eq_false_2.
      * apply dict_get_set.
    + eexists. split; [reflexivity|]. simpl. done.
Qed.

Lemma create_file_in_base_succeeds_witness :
  (exists w',
     create_file ".log" "run_" (Some 30) 7%N 0 0 Scenario.fresh
       = (Ok (Scenario.base ++ ["run_00000000000000000000000000000007.log"])%list, w')
     /\ node_at (w_fs w') (Scenario.base ++ ["run_00000000000000000000000000000007.log"])%list
        = Some (File ""))
  /\ (exists w',
        create_file ".log" "run_" (Some 1000000000000) 7%N 0 0 Scenario.fresh
          = (Raise OverflowError, w')
        /\ w_self w' = w_self Scenario.fresh
        /\ node_at (w_fs w')
             (Scenario.base ++ ["run_00000000000000000000000000000007.log"])%list
           = Some (File "")).
Proof.
  split.
  - destruct (proj1 (create_file_in_base_succeeds Scenario.fresh ".log" "run_" (Some 30)
                       7%N 0 0 eq_refl eq_refl eq_refl) eq_refl)
      as (w' & Heq & Hnode & _).
    exists w'. split; [exact Heq|exact Hnode].
  - exact (proj2 (create_file_in_base_succeeds Scenario.fresh ".log" "run_"
                    (Some 1000000000000) 7%N 0 0 eq_refl eq_refl eq_refl) eq_refl).
Defined.

(** [create_dir] never adopts what is already there: when it returns, the
    path held nothing before and holds a directory now; when something is
    at the path, it raises and the registry is as it was. *)
Theorem create_dir_makes_a_new_directory (w : @World posix) (prefix : string)
    (ttl : option Z) (u : N) (now1 now2 : datetime) :
  (forall p w',
     create_dir prefix ttl u now1 now2 w = (Ok p, w') ->
     p = joinpath (base_dir (w_self w)) (prefix +:+ uuid_hex u)
     /\ node_at (w_fs w) p = None
     /\ node_at (w_fs w') p = Some Dir)
  /\ (node_at (w_fs w) (joinpath (base_dir (w_self w)) (prefix +:+ uuid_hex u)) <> None ->
      exists e w',
        create_dir prefix ttl u now1 now2 w = (Raise e, w')
        /\ w_self w' = w_self w).
Proof.
  unfold create_dir, eval_expires, register, bind, get_self, on_fs, put_files, ret, raise.
  simpl. unfold posix_mkdir.
  set (p := joinpath (base_dir (w_self w)) (prefix +:+ uuid_hex u)).
  destruct (mkdir_fuel (length p) true false p (w_fs w)) as [[[]|e] fs'] eqn:Hmk; simpl.
  - pose proof (mkdir_new _ _ _ _ _ Hmk) as Hnew.
    pose proof (mkdir_settles _ _ _ _ _ _ Hmk) as [Hdir _].
    split; [|done]. destruct (expires_raises now1 ttl); simpl; [done|].
    intros p' w' [= <- <-]. done.
  - split; [done|]. intros _. by eexists _, _.
Qed.

Lemma create_dir_makes_a_new_directory_witness :
  exists e w',
    create_dir "" None 1%N 9 9 Scenario.tracked = (Raise e, w')
    /\ w_self w' = w_self Scenario.tracked.
Proof.
  apply (proj2 (create_dir_makes_a_new_directory Scenario.tracked "" None 1%N 9 9)).
  vm_compute. discriminate.
Defined.



(** ** The directory handle's cleanup and scope *)








(** ** The file handle's stream and scope *)

(** Closing again after [close] has returned does nothing; a [close] that
    raises leaves the stream on the handle, which is then not closed. *)
Theorem close_twice {S : Type} `{Stream S} (self : TempFile.t S) :
  (forall self',
     TempFile.close self = (Ok tt, self') ->
     TempFile.close self' = (Ok tt, self'))
  /\ (forall e self',
        TempFile.close self = (Raise e, self') ->
        is_Some (TempFile._file self')).
Proof.
  unfold TempFile.close. split.
  - intros self'. destruct (TempFile._file self) as [f|] eqn:Hf.
    + destruct (stream_close f) as [[[]|e] f']; [|done]. by intros [= <-].
    + intros [= <-]. by rewrite Hf.
  - intros e self'. destruct (TempFile._file self) as [f|] eqn:Hf; [|done].
    destruct (stream_close f) as [[[]|e'] f']; [done|]. intros [= _ <-]. by eexists.
Qed.

Lemma close_twice_witness :
  TempFile.close
    (snd (TempFile.close
       (snd (TempFile.create 3 ["/"; "tmp"; "road_x"] {| content := "ab"; position := 2 |}
               (TempFile.init "" "road_" None true true)))))
  = (Ok tt,
     snd (TempFile.close
       (snd (TempFile.create 3 ["/"; "tmp"; "road_x"] {| content := "ab"; position := 2 |}
               (TempFile.init "" "road_" None true true))))).
Proof.
  apply (proj1 (close_twice
    (snd (TempFile.create 3 ["/"; "tmp"; "road_x"] {| content := "ab"; position := 2 |}
            (TempFile.init "" "road_" None true true))))).
  reflexivity.
Defined.

Lemma substring_all (s : string) : String.substring 0 (String.length s) s = s.
Proof. induction s as [|c r IH]; simpl; [done|]. by rewrite IH. Qed.

Lemma substring_empty (n m : nat) : String.substring n m "" = "".
Proof. by destruct n, m. Qed.

Lemma buffer_write_empty (s : string) (pos : nat) :
  buffer_write (Str s) {| content := ""; position := pos |}
  = (Ok (String.length s), {| content := s; position := (pos + String.length s)%nat |}).
Proof.
  unfold buffer_write. cbn [content position]. rewrite !substring_empty.
  change ("" +:+ s +:+ "") with (s +:+ ""). by rewrite append_empty.
Qed.

(** On a stream held in memory, [read] returns the whole content wherever
    the position stood, so reading twice gives the same; and what is
    written to a new, empty stream is what [read] returns. *)
Theorem read_returns_everything (self : TempFile.t buffer) (b : buffer) (s : string) :
  TempFile._file self = Some b ->
  (exists self',
     TempFile.read self = (Ok (Str (content b)), self')
     /\ TempFile.read self' = (Ok (Str (content b)), self'))
  /\ (content b = "" -> position b = 0%nat ->
      exists self1 self2,
        TempFile.write (Str s) self = (Ok (String.length s), self1)
        /\ TempFile.read self1 = (Ok (Str s), self2)).
Proof.
  intros Hf. split.
  - unfold TempFile.read, TempFile.on_stream, bind. rewrite Hf. simpl.
    rewrite Nat.sub_0_r, substring_all.
    eexists. split; [reflexivity|]. simpl. by rewrite Nat.sub_0_r, substring_all.
  - intros Hempty Hstart. destruct b as [cont pos]. simpl in Hempty, Hstart. subst cont pos.
    unfold TempFile.write, TempFile.on_stream. rewrite Hf.
    change (stream_write (Str s) {| content := ""; position := 0 |})
      with (buffer_write (Str s) {| content := ""; position := 0 |}).
    rewrite buffer_write_empty. eexists _, _. split; [reflexivity|].
    unfold TempFile.read, TempFile.on_stream, bind. simpl.
    by rewrite Nat.sub_0_r, substring_all.
Qed.

Lemma read_returns_everything_witness :
  exists self1 self2,
    TempFile.write (Str "Hello")
      (snd (TempFile.create 3 ["/"; "tmp"; "road_x"] {| content := ""; position := 0 |}
              (TempFile.init "" "road_" None true true)))
    = (Ok 5%nat, self1)
    /\ TempFile.read self1 = (Ok (Str "Hello"), self2).
Proof.
  apply (proj2 (read_returns_everything
    (snd (TempFile.create 3 ["/"; "tmp"; "road_x"] {| content := ""; position := 0 |}
            (TempFile.init "" "road_" None true true)))
    {| content := ""; position := 0 |} "Hello" eq_refl));
    reflexivity.
Defined.





